(** * Exponential moving average filter (src/Helpers/EMA.h)

    A shallow embedding of the class template [EMA<K, int_t>] and the
    properties of its only operation, [filter].

    The template has two compile-time parameters, the shift [K] (a
    [uint8_t]) and the signed sample type [int_t].  A third parameter of
    the model is the width of the platform's [int]: the literal [1] of the
    rounding constant and the shift amount [K * 2] are [int]s, and operands
    narrower than [int] are promoted to it before every operation.

    Signed integers are mathematical integers ([Z]) kept in range by an
    explicit two's complement wrap-around: a left shift multiplies by a
    power of two and wraps, a right shift is arithmetic.  A shift whose
    amount is negative or not smaller than the width of its (promoted) left
    operand has no value, and neither has a computation that contains
    one. *)

From Stdlib Require Import ZArith Lia List Bool Sorted.
Import ListNotations.
Local Open Scope Z_scope.

(** ** Machine integers *)

Module MachInt.

(** [fits bits x]: [x] is representable as a signed integer of [bits] bits. *)
Definition fits (bits x : Z) : Prop :=
  - 2 ^ (bits - 1) <= x < 2 ^ (bits - 1).

Definition fitsb (bits x : Z) : bool :=
  (- 2 ^ (bits - 1) <=? x) && (x <? 2 ^ (bits - 1)).

(** Conversion to a signed integer of [bits] bits (two's complement). *)
Definition wrap (bits x : Z) : Z :=
  (x + 2 ^ (bits - 1)) mod 2 ^ bits - 2 ^ (bits - 1).

(** A shift amount is valid when it is neither negative nor as large as
    the width of the promoted left operand. *)
Definition valid_shift (bits n : Z) : bool :=
  (0 <=? n) && (n <? bits).

(** [a << n] on a signed integer of [bits] bits. *)
Definition shl (bits a n : Z) : option Z :=
  if valid_shift bits n then Some (wrap bits (Z.shiftl a n)) else None.

(** [a >> n] on a signed integer of [bits] bits: the shift is arithmetic,
    negative values round towards minus infinity. *)
Definition shr (bits a n : Z) : option Z :=
  if valid_shift bits n then Some (Z.shiftr a n) else None.

End MachInt.
Import MachInt.

(** Sequencing of operations that may have no value. *)
Definition bind {A B : Type} (m : option A) (f : A -> option B) : option B :=
  match m with
  | Some a => f a
  | None => None
  end.

Notation "x <- m ;; k" := (bind m (fun x => k))
  (at level 61, m at next level, right associativity).

(** ** The filter *)

(** The object: its only data member is [filtered]. *)
Record EMA : Type := mkEMA { filtered : Z }.

(** [int_t filtered = 0;] *)
Definition fresh : EMA := {| filtered := 0 |}.

Section Filter.

(** Template parameters [K] and [int_t] (through its width [w]), and the
    width of [int]. *)
Variables (K int_bits w : Z).

(** Width in which arithmetic on [int_t] operands is carried out. *)
Definition promoted : Z := Z.max int_bits w.

(** [constexpr static int_t fixedPointAHalf = 1 << ((K * 2) - 1);] *)
Definition fixedPointAHalf : option Z :=
  h <- shl int_bits 1 (K * 2 - 1) ;;
  Some (wrap w h).

(** [int_t EMA<K, int_t>::filter(int_t input)]: the value returned and
    the object after the call. *)
Definition filter (self : EMA) (input : Z) : option (Z * EMA) :=
  s <- shl promoted input (K * 2) ;;
  let input := wrap w s in
  let difference := wrap w (wrap promoted (input - filtered self)) in
  d <- shr promoted difference K ;;
  let filtered' := wrap w (wrap promoted (filtered self + d)) in
  h <- fixedPointAHalf ;;
  r <- shr promoted (wrap promoted (filtered' + h)) (K * 2) ;;
  Some (wrap w r, {| filtered := filtered' |}).

(** Feeding a sequence of samples to one object, call after call. *)
Fixpoint run (self : EMA) (inputs : list Z) : option (list Z * EMA) :=
  match inputs with
  | [] => Some ([], self)
  | x :: rest =>
      r <- filter self x ;;
      t <- run (snd r) rest ;;
      Some (fst r :: fst t, snd t)
  end.

(** The same as a relation between the object before, the samples, the
    values returned and the object after. *)
Inductive calls : EMA -> list Z -> list Z -> EMA -> Prop :=
| calls_nil : forall self, calls self [] [] self
| calls_cons : forall self x out self1 rest outs self2,
    filter self x = Some (out, self1) ->
    calls self1 rest outs self2 ->
    calls self (x :: rest) (out :: outs) self2.

(** All shifts of [filter] and of the rounding constant are valid. *)
Definition shifts_valid : bool :=
  valid_shift int_bits (K * 2 - 1)
  && valid_shift promoted (K * 2)
  && valid_shift promoted K.

(** The configuration under which the rounding constant is the positive
    power of two it is meant to be: [K] is positive and [2 ^ (2K - 1)] is
    representable both in [int] and in [int_t]. *)
Definition config_ok : bool :=
  (1 <=? K) && (2 * K <? int_bits) && (2 * K <? w).

End Filter.

(** ** The algorithm in unbounded integers *)

(** The algorithm as the specification words it, step by step and over
    mathematical integers: [scaled_input = input << 2K],
    [difference = scaled_input - accumulator],
    [accumulator = accumulator + (difference >> K)] and
    [output = (accumulator + 2 ^ (2K - 1)) >> 2K].  The result is the output
    and the new accumulator; [filter] above is compared with it. *)
Definition spec_filter (K accumulator input : Z) : Z * Z :=
  let scaled_input := Z.shiftl input (2 * K) in
  let difference := scaled_input - accumulator in
  let accumulator' := accumulator + Z.shiftr difference K in
  (Z.shiftr (accumulator' + 2 ^ (2 * K - 1)) (2 * K), accumulator').

(** No step of a call overflows the sample type. *)
Definition no_overflow (K w accumulator input : Z) : Prop :=
  fits w accumulator
  /\ fits w (Z.shiftl input (2 * K))
  /\ fits w (Z.shiftl input (2 * K) - accumulator)
  /\ fits w (snd (spec_filter K accumulator input) + 2 ^ (2 * K - 1)).

(** The same steps with multiplication and flooring division, one by one,
    and their iteration over a sequence of samples: the reference against
    which sequences of calls are measured. *)
Definition scale (K x : Z) : Z := x * 2 ^ (2 * K).

Definition next_acc (K acc x : Z) : Z := acc + (scale K x - acc) / 2 ^ K.

Definition descale (K acc : Z) : Z := (acc + 2 ^ (2 * K - 1)) / 2 ^ (2 * K).

Fixpoint acc_after (K acc : Z) (inputs : list Z) : Z :=
  match inputs with
  | [] => acc
  | x :: rest => acc_after K (next_acc K acc x) rest
  end.

Fixpoint outs_of (K acc : Z) (inputs : list Z) : list Z :=
  match inputs with
  | [] => []
  | x :: rest => descale K (next_acc K acc x) :: outs_of K (next_acc K acc x) rest
  end.

(** A sequence of returned values that increases at every call. *)
Fixpoint strictly_increasing (outs : list Z) : bool :=
  match outs with
  | a :: (b :: _) as rest => (a <? b) && strictly_increasing rest
  | _ => true
  end.

(** An accumulator that the sample [x] leaves in place and that is read
    as [x]. *)
Definition settled (K x acc : Z) : Prop :=
  next_acc K acc x = acc /\ descale K acc = x.

(** Smallest and largest scaled input of a sequence, zero included. *)
Definition scaled_min (K : Z) (inputs : list Z) : Z :=
  fold_right Z.min 0 (map (scale K) inputs).

Definition scaled_max (K : Z) (inputs : list Z) : Z :=
  fold_right Z.max 0 (map (scale K) inputs).

(** ** Arithmetic of machine integers *)

Lemma pow2_pos (n : Z) : 0 <= n -> 0 < 2 ^ n.
Proof. intros Hn. apply Z.pow_pos_nonneg; lia. Qed.

Lemma pow2_double (n : Z) : 1 <= n -> 2 ^ n = 2 * 2 ^ (n - 1).
Proof.
  intros Hn. replace n with (Z.succ (n - 1)) at 1 by lia.
  apply Z.pow_succ_r. lia.
Qed.

Lemma pow2_le (m n : Z) : 0 <= m <= n -> 2 ^ m <= 2 ^ n.
Proof. intros H. apply Z.pow_le_mono_r; lia. Qed.

Lemma wrap_fits (bits x : Z) : 1 <= bits -> fits bits x -> wrap bits x = x.
Proof.
  unfold fits, wrap. intros Hb Hx.
  rewrite (pow2_double bits Hb).
  rewrite Z.mod_small; lia.
Qed.

Lemma fits_mono (b1 b2 x : Z) : 1 <= b1 <= b2 -> fits b1 x -> fits b2 x.
Proof.
  unfold fits. intros Hb Hx.
  assert (2 ^ (b1 - 1) <= 2 ^ (b2 - 1)) by (apply pow2_le; lia).
  lia.
Qed.

Lemma fitsb_fits (bits x : Z) : fitsb bits x = true <-> fits bits x.
Proof.
  unfold fitsb, fits.
  rewrite andb_true_iff, Z.leb_le, Z.ltb_lt. tauto.
Qed.

Lemma fits_div (bits n q : Z) : 1 <= q -> fits bits n -> fits bits (n / q).
Proof.
  unfold fits. intros Hq [Hlo Hhi].
  assert (0 < 2 ^ (bits - 1)).
  { destruct (Z.le_gt_cases 0 (bits - 1)) as [H | H].
    - now apply pow2_pos.
    - rewrite Z.pow_neg_r in Hhi, Hlo by lia. lia. }
  pose proof (Z.div_mod n q ltac:(lia)) as E.
  pose proof (Z.mod_pos_bound n q ltac:(lia)) as B.
  split; nia.
Qed.

Lemma valid_shift_true (bits n : Z) :
  valid_shift bits n = true <-> 0 <= n < bits.
Proof.
  unfold valid_shift. rewrite andb_true_iff, Z.leb_le, Z.ltb_lt. tauto.
Qed.

Lemma shl_some (bits a n : Z) :
  0 <= n < bits -> shl bits a n = Some (wrap bits (a * 2 ^ n)).
Proof.
  intros H. unfold shl.
  rewrite (proj2 (valid_shift_true bits n) H).
  now rewrite Z.shiftl_mul_pow2 by lia.
Qed.

Lemma shr_some (bits a n : Z) :
  0 <= n < bits -> shr bits a n = Some (a / 2 ^ n).
Proof.
  intros H. unfold shr.
  rewrite (proj2 (valid_shift_true bits n) H).
  now rewrite Z.shiftr_div_pow2 by lia.
Qed.

(** ** Arithmetic of the algorithm *)

Lemma pow2_2K (K : Z) : 0 <= K -> 2 ^ (2 * K) = 2 ^ K * 2 ^ K.
Proof.
  intros HK. replace (2 * K) with (K + K) by lia.
  apply Z.pow_add_r; lia.
Qed.

Lemma pow2_2K_half (K : Z) : 1 <= K -> 2 ^ (2 * K) = 2 * 2 ^ (2 * K - 1).
Proof. intros HK. apply pow2_double. lia. Qed.

Lemma pow2_K_le_half (K : Z) : 1 <= K -> 2 ^ K <= 2 ^ (2 * K - 1).
Proof. intros HK. apply pow2_le. lia. Qed.

Lemma next_acc_up (K acc x : Z) :
  0 <= K -> acc <= scale K x -> acc <= next_acc K acc x <= scale K x.
Proof.
  intros HK Hle. unfold next_acc.
  pose proof (pow2_pos K HK) as HP.
  pose proof (Z.div_mod (scale K x - acc) (2 ^ K) ltac:(lia)) as E.
  pose proof (Z.mod_pos_bound (scale K x - acc) (2 ^ K) HP) as B.
  split; nia.
Qed.

Lemma next_acc_down (K acc x : Z) :
  0 <= K -> scale K x <= acc -> scale K x <= next_acc K acc x <= acc.
Proof.
  intros HK Hle. unfold next_acc.
  pose proof (pow2_pos K HK) as HP.
  pose proof (Z.div_mod (scale K x - acc) (2 ^ K) ltac:(lia)) as E.
  pose proof (Z.mod_pos_bound (scale K x - acc) (2 ^ K) HP) as B.
  split; nia.
Qed.

Lemma next_acc_between (K acc x : Z) :
  0 <= K ->
  Z.min acc (scale K x) <= next_acc K acc x <= Z.max acc (scale K x).
Proof.
  intros HK. destruct (Z.le_gt_cases acc (scale K x)) as [H | H].
  - pose proof (next_acc_up K acc x HK H). lia.
  - pose proof (next_acc_down K acc x HK ltac:(lia)). lia.
Qed.

(** Far below the target the accumulator gains at least one unit. *)
Lemma next_acc_climbs (K acc x : Z) :
  0 <= K -> 2 ^ K <= scale K x - acc -> acc + 1 <= next_acc K acc x.
Proof.
  intros HK Hfar. unfold next_acc.
  pose proof (pow2_pos K HK) as HP.
  assert (1 <= (scale K x - acc) / 2 ^ K)
    by (apply Z.div_le_lower_bound; lia).
  lia.
Qed.

(** Within [2 ^ K] below the target the accumulator no longer moves. *)
Lemma next_acc_stuck (K acc x : Z) :
  0 <= K -> 0 <= scale K x - acc < 2 ^ K -> next_acc K acc x = acc.
Proof.
  intros HK Hnear. unfold next_acc.
  rewrite Z.div_small by lia. lia.
Qed.

(** Above the target the accumulator loses at least one unit. *)
Lemma next_acc_descends (K acc x : Z) :
  0 <= K -> scale K x < acc -> next_acc K acc x <= acc - 1.
Proof.
  intros HK Hlt. unfold next_acc.
  pose proof (pow2_pos K HK) as HP.
  assert ((scale K x - acc) / 2 ^ K < 0)
    by (apply Z.div_lt_upper_bound; lia).
  lia.
Qed.

Lemma next_acc_at_target (K x : Z) : next_acc K (scale K x) x = scale K x.
Proof.
  unfold next_acc. rewrite Z.sub_diag, Zdiv_0_l. lia.
Qed.

Lemma descale_mono (K a b : Z) :
  0 <= K -> a <= b -> descale K a <= descale K b.
Proof.
  intros HK Hab. unfold descale.
  apply Z.div_le_mono; [apply pow2_pos|]; lia.
Qed.

(** Every accumulator within half a unit of [scale K x] is read as [x]. *)
Lemma descale_near (K acc x : Z) :
  1 <= K ->
  scale K x - 2 ^ (2 * K - 1) <= acc < scale K x + 2 ^ (2 * K - 1) ->
  descale K acc = x.
Proof.
  intros HK Hnear. unfold descale, scale in *.
  pose proof (pow2_2K_half K HK) as E.
  pose proof (pow2_pos (2 * K - 1) ltac:(lia)) as HH.
  symmetry.
  apply (Z.div_unique _ _ x (acc + 2 ^ (2 * K - 1) - x * 2 ^ (2 * K)));
    lia.
Qed.

Lemma descale_scale (K x : Z) : 1 <= K -> descale K (scale K x) = x.
Proof.
  intros HK. apply descale_near; trivial.
  pose proof (pow2_pos (2 * K - 1) ltac:(lia)). lia.
Qed.

(** A scaled value that fits leaves room for the rounding constant. *)
Lemma scale_headroom (K w x : Z) :
  1 <= K -> 2 * K < w -> scale K x < 2 ^ (w - 1) ->
  scale K x + 2 ^ (2 * K - 1) < 2 ^ (w - 1).
Proof.
  intros HK Hw Hx. unfold scale in *.
  pose proof (pow2_2K_half K HK) as E.
  pose proof (pow2_pos (2 * K - 1) ltac:(lia)) as HH.
  pose proof (pow2_pos (w - 1 - 2 * K) ltac:(lia)) as HR.
  assert (S : 2 ^ (w - 1) = 2 ^ (w - 1 - 2 * K) * 2 ^ (2 * K)).
  { rewrite <- Z.pow_add_r by lia. f_equal. lia. }
  rewrite S in *.
  assert (x < 2 ^ (w - 1 - 2 * K)) by nia.
  nia.
Qed.

(** ** One call without overflow *)

Lemma config_ok_intro (K int_bits w : Z) :
  1 <= K -> 2 * K < int_bits -> 2 * K < w -> config_ok K int_bits w = true.
Proof.
  intros. unfold config_ok.
  rewrite !andb_true_iff, Z.leb_le, !Z.ltb_lt. lia.
Qed.

(** A call has a value as soon as its shift amounts are valid. *)
Lemma filter_defined (K int_bits w : Z) (self : EMA) (x : Z) :
  1 <= K -> 2 * K - 1 < int_bits -> 2 * K < promoted int_bits w ->
  exists r, filter K int_bits w self x = Some r.
Proof.
  intros HK Hi Hp. unfold filter, fixedPointAHalf.
  rewrite (shl_some (promoted int_bits w)) by lia. cbn [bind].
  rewrite shr_some by lia. cbn [bind].
  rewrite shl_some by lia. cbn [bind].
  rewrite shr_some by lia. cbn [bind]. eauto.
Qed.

Section Call.

Variables (K int_bits w : Z).
Hypothesis Hcfg : config_ok K int_bits w = true.

Lemma config_bounds : 1 <= K /\ 2 * K < int_bits /\ 2 * K < w.
Proof.
  unfold config_ok in Hcfg.
  rewrite !andb_true_iff, Z.leb_le, !Z.ltb_lt in Hcfg. tauto.
Qed.

Lemma promoted_bounds :
  int_bits <= promoted int_bits w /\ w <= promoted int_bits w.
Proof. unfold promoted. lia. Qed.

Lemma fits_promoted (x : Z) : fits w x -> fits (promoted int_bits w) x.
Proof.
  destruct config_bounds as (HK & _ & Hw). pose proof promoted_bounds.
  apply fits_mono. lia.
Qed.

Lemma half_fits (bits : Z) : 2 * K < bits -> fits bits (2 ^ (2 * K - 1)).
Proof.
  destruct config_bounds as (HK & _ & _). intros Hb. unfold fits.
  pose proof (pow2_pos (2 * K - 1) ltac:(lia)).
  pose proof (pow2_pos (bits - 1) ltac:(lia)).
  assert (2 ^ (2 * K - 1) < 2 ^ (bits - 1))
    by (apply Z.pow_lt_mono_r; lia).
  lia.
Qed.

Lemma fixedPointAHalf_some :
  fixedPointAHalf K int_bits w = Some (2 ^ (2 * K - 1)).
Proof.
  destruct config_bounds as (HK & Hi & Hw). unfold fixedPointAHalf.
  rewrite shl_some by lia. cbn [bind].
  replace (K * 2 - 1) with (2 * K - 1) by lia. rewrite Z.mul_1_l.
  rewrite (wrap_fits int_bits) by (try apply half_fits; lia).
  rewrite (wrap_fits w) by (try apply half_fits; lia).
  reflexivity.
Qed.

(** A value that fits the sample type survives promotion and conversion
    back. *)
Ltac unwrap v :=
  rewrite (wrap_fits (promoted int_bits w) v)
    by (try apply fits_promoted; trivial; lia);
  rewrite (wrap_fits w v) by (trivial; lia).

(** The accumulator update of a call whose difference does not
    overflow. *)
Lemma filter_state (self : EMA) (x : Z) :
  fits w (filtered self) ->
  fits w (scale K x) ->
  fits w (scale K x - filtered self) ->
  filter K int_bits w self x =
  Some (wrap w (wrap (promoted int_bits w)
                  (next_acc K (filtered self) x + 2 ^ (2 * K - 1))
                / 2 ^ (2 * K)),
        {| filtered := next_acc K (filtered self) x |}).
Proof.
  destruct config_bounds as (HK & Hi & Hw). pose proof promoted_bounds as HP.
  intros Hacc Hs Hd. unfold filter.
  rewrite shl_some by lia. cbn [bind].
  replace (K * 2) with (2 * K) by lia. fold (scale K x).
  unwrap (scale K x).
  unwrap (scale K x - filtered self).
  rewrite shr_some by lia. cbn [bind].
  fold (next_acc K (filtered self) x).
  assert (Hn : fits w (next_acc K (filtered self) x)).
  { pose proof (next_acc_between K (filtered self) x ltac:(lia)).
    unfold fits in *. lia. }
  unwrap (next_acc K (filtered self) x).
  rewrite fixedPointAHalf_some. cbn [bind].
  rewrite shr_some by lia. cbn [bind].
  reflexivity.
Qed.

(** The whole call when the rounding addition does not overflow
    either. *)
Lemma filter_exact (self : EMA) (x : Z) :
  fits w (filtered self) ->
  fits w (scale K x) ->
  fits w (scale K x - filtered self) ->
  fits w (next_acc K (filtered self) x + 2 ^ (2 * K - 1)) ->
  filter K int_bits w self x =
  Some (descale K (next_acc K (filtered self) x),
        {| filtered := next_acc K (filtered self) x |}).
Proof.
  destruct config_bounds as (HK & Hi & Hw).
  intros Hacc Hs Hd Hr. rewrite filter_state by trivial.
  rewrite (wrap_fits (promoted int_bits w))
    by (try apply fits_promoted; trivial; pose proof promoted_bounds; lia).
  fold (descale K (next_acc K (filtered self) x)).
  rewrite wrap_fits; trivial; try lia.
  apply fits_div; trivial.
  pose proof (pow2_pos (2 * K) ltac:(lia)). lia.
Qed.

End Call.

(** ** Sequences of calls under an invariant of the accumulator *)

Section Runs.

Variables (K int_bits w : Z).
Hypothesis Hcfg : config_ok K int_bits w = true.

(** [Inv] holds of the accumulator, [Adm] of every sample; together they
    exclude overflow of the update and are preserved by it. *)
Variables (Inv Adm : Z -> Prop).
Hypothesis Inv_step : forall a x,
  Inv a -> Adm x ->
  fits w a /\ fits w (scale K x) /\ fits w (scale K x - a)
  /\ Inv (next_acc K a x).

Lemma acc_after_inv (inputs : list Z) : forall acc,
  Inv acc -> Forall Adm inputs -> Inv (acc_after K acc inputs).
Proof.
  induction inputs as [| x rest IH]; intros acc Hacc Hin; cbn.
  - exact Hacc.
  - inversion Hin; subst. apply IH; trivial.
    now apply Inv_step.
Qed.

Lemma run_state (inputs : list Z) : forall acc,
  Inv acc -> Forall Adm inputs ->
  exists outs,
    run K int_bits w {| filtered := acc |} inputs =
    Some (outs, {| filtered := acc_after K acc inputs |}).
Proof.
  induction inputs as [| x rest IH]; intros acc Hacc Hin; cbn [run acc_after].
  - now exists [].
  - inversion Hin as [| ? ? Hx Hrest]; subst.
    destruct (Inv_step acc x Hacc Hx) as (Ha & Hs & Hd & Hn).
    rewrite (filter_state K int_bits w Hcfg) by trivial.
    cbn [bind snd fst filtered].
    destruct (IH _ Hn Hrest) as [outs E]. rewrite E. cbn [bind snd fst].
    eauto.
Qed.

Hypothesis Inv_round : forall a, Inv a -> fits w (a + 2 ^ (2 * K - 1)).

Lemma run_exact (inputs : list Z) : forall acc,
  Inv acc -> Forall Adm inputs ->
  run K int_bits w {| filtered := acc |} inputs =
  Some (outs_of K acc inputs, {| filtered := acc_after K acc inputs |}).
Proof.
  induction inputs as [| x rest IH]; intros acc Hacc Hin;
    cbn [run acc_after outs_of].
  - reflexivity.
  - inversion Hin as [| ? ? Hx Hrest]; subst.
    destruct (Inv_step acc x Hacc Hx) as (Ha & Hs & Hd & Hn).
    rewrite (filter_exact K int_bits w Hcfg) by auto.
    cbn [bind snd fst filtered].
    rewrite (IH _ Hn Hrest). reflexivity.
Qed.

End Runs.

(** The relation [calls] and the function [run] describe the same
    executions. *)
Lemma calls_run (K int_bits w : Z) (self : EMA) (inputs outs : list Z)
      (self' : EMA) :
  calls K int_bits w self inputs outs self' <->
  run K int_bits w self inputs = Some (outs, self').
Proof.
  split.
  - induction 1 as [| self x out self1 rest outs self2 Hf _ IH]; cbn [run].
    + reflexivity.
    + rewrite Hf. cbn [bind snd fst]. rewrite IH. reflexivity.
  - revert self outs self'.
    induction inputs as [| x rest IH]; intros self outs self'; cbn [run].
    + intros E. injection E as <- <-. constructor.
    + destruct (filter K int_bits w self x) as [[out self1] |] eqn:Hf;
        cbn [bind snd fst]; [| discriminate].
      destruct (run K int_bits w self1 rest) as [[outs1 self2] |] eqn:Hr;
        cbn [bind snd fst]; [| discriminate].
      intros E. injection E as <- <-.
      econstructor; eauto.
Qed.

(** ** A constant stream of samples, in unbounded integers *)

Lemma outs_of_length (K : Z) (inputs : list Z) : forall acc,
  length (outs_of K acc inputs) = length inputs.
Proof.
  induction inputs as [| x rest IH]; intros acc; cbn; [| rewrite IH];
    reflexivity.
Qed.

Lemma outs_of_app (K : Z) (l1 l2 : list Z) : forall acc,
  outs_of K acc (l1 ++ l2) =
  outs_of K acc l1 ++ outs_of K (acc_after K acc l1) l2.
Proof.
  induction l1 as [| x rest IH]; intros acc; cbn; [| rewrite IH];
    reflexivity.
Qed.

Section Constant.

Variables (K x : Z).
Hypothesis HK : 1 <= K.

Lemma settled_below (acc : Z) :
  0 <= scale K x - acc < 2 ^ K -> settled K x acc.
Proof.
  intros H. split.
  - apply next_acc_stuck; lia.
  - apply descale_near; trivial.
    pose proof (pow2_K_le_half K HK). lia.
Qed.

Lemma settled_at_target : settled K x (scale K x).
Proof.
  split; [apply next_acc_at_target | now apply descale_scale].
Qed.

Lemma outs_of_settled (m : nat) (acc : Z) :
  settled K x acc -> outs_of K acc (repeat x m) = repeat x m.
Proof.
  intros [Hn Hd]. induction m as [| m IH]; cbn; trivial.
  rewrite Hn, Hd, IH. reflexivity.
Qed.

(** When every call after the first [N] returns [x], the values returned
    from call [N] on are copies of [x]. *)
Lemma outs_of_skipn_tail (N n : nat) (acc : Z) :
  (forall m, outs_of K (acc_after K acc (repeat x N)) (repeat x m)
             = repeat x m) ->
  skipn N (outs_of K acc (repeat x n)) = repeat x (n - N).
Proof.
  intros Htail. destruct (Nat.le_gt_cases n N) as [Hle | Hgt].
  - replace (n - N)%nat with 0%nat by lia. cbn.
    apply skipn_all2. rewrite outs_of_length, repeat_length. exact Hle.
  - replace n with (N + (n - N))%nat at 1 by lia.
    rewrite repeat_app, outs_of_app, skipn_app.
    rewrite outs_of_length, repeat_length, Nat.sub_diag, skipn_O.
    rewrite skipn_all2 by (rewrite outs_of_length, repeat_length; lia).
    cbn [app]. apply Htail.
Qed.

(** Once the accumulator has settled after [N] calls, every later call
    returns [x]. *)
Lemma outs_of_skipn (N n : nat) (acc : Z) :
  settled K x (acc_after K acc (repeat x N)) ->
  skipn N (outs_of K acc (repeat x n)) = repeat x (n - N).
Proof.
  intros Hs. apply outs_of_skipn_tail. intros m. now apply outs_of_settled.
Qed.

(** *** Rising towards [scale K x] *)

Lemma rising_sorted (n : nat) : forall acc,
  acc <= scale K x -> Sorted Z.le (outs_of K acc (repeat x n)).
Proof.
  induction n as [| n IH]; intros acc Hle; cbn; constructor.
  - apply IH. apply next_acc_up; lia.
  - destruct n as [| n]; cbn; constructor.
    apply descale_mono; [lia|].
    apply next_acc_up; [lia|]. apply next_acc_up; lia.
Qed.

Lemma rising_bounds (n : nat) : forall acc,
  acc <= scale K x ->
  Forall (fun o => descale K acc <= o <= x) (outs_of K acc (repeat x n)).
Proof.
  induction n as [| n IH]; intros acc Hle; cbn; constructor.
  - pose proof (next_acc_up K acc x ltac:(lia) Hle) as [H1 H2].
    pose proof (descale_mono K _ _ ltac:(lia) H2) as D.
    rewrite descale_scale in D by trivial.
    split; [apply descale_mono|]; lia.
  - pose proof (next_acc_up K acc x ltac:(lia) Hle) as [H1 H2].
    eapply Forall_impl; [| apply IH; exact H2].
    cbn. intros o [Ho1 Ho2]. split; trivial.
    pose proof (descale_mono K _ _ ltac:(lia) H1). lia.
Qed.

Lemma rising_progress (n : nat) : forall acc,
  acc <= scale K x ->
  acc <= acc_after K acc (repeat x n) <= scale K x
  /\ (scale K x - acc_after K acc (repeat x n) < 2 ^ K
      \/ acc + Z.of_nat n <= acc_after K acc (repeat x n)).
Proof.
  induction n as [| n IH]; intros acc Hle; cbn [repeat acc_after].
  - split; [lia | right; lia].
  - pose proof (next_acc_up K acc x ltac:(lia) Hle) as [H1 H2].
    destruct (IH _ H2) as [[B1 B2] Hp]. split; [lia|].
    destruct (Z.lt_ge_cases (scale K x - acc) (2 ^ K)) as [Hnear | Hfar].
    + left. lia.
    + pose proof (next_acc_climbs K acc x ltac:(lia) ltac:(lia)). lia.
Qed.

Lemma rising_settles (n : nat) :
  0 <= x -> scale K x <= Z.of_nat n ->
  settled K x (acc_after K 0 (repeat x n)).
Proof.
  intros Hx Hn.
  assert (H0 : 0 <= scale K x).
  { unfold scale. pose proof (pow2_pos (2 * K) ltac:(lia)). nia. }
  destruct (rising_progress n 0 H0) as [[B1 B2] Hp].
  apply settled_below.
  pose proof (pow2_pos K ltac:(lia)). lia.
Qed.

(** *** Falling towards [scale K x] *)

Lemma falling_sorted (n : nat) : forall acc,
  scale K x <= acc -> Sorted Z.ge (outs_of K acc (repeat x n)).
Proof.
  induction n as [| n IH]; intros acc Hle; cbn; constructor.
  - apply IH. apply next_acc_down; lia.
  - destruct n as [| n]; cbn; constructor.
    apply Z.le_ge. apply descale_mono; [lia|].
    apply next_acc_down; [lia|]. apply next_acc_down; lia.
Qed.

Lemma falling_bounds (n : nat) : forall acc,
  scale K x <= acc ->
  Forall (fun o => x <= o <= descale K acc) (outs_of K acc (repeat x n)).
Proof.
  induction n as [| n IH]; intros acc Hle; cbn; constructor.
  - pose proof (next_acc_down K acc x ltac:(lia) Hle) as [H1 H2].
    pose proof (descale_mono K _ _ ltac:(lia) H1) as D.
    rewrite descale_scale in D by trivial.
    split; [|apply descale_mono]; lia.
  - pose proof (next_acc_down K acc x ltac:(lia) Hle) as [H1 H2].
    eapply Forall_impl; [| apply IH; exact H1].
    cbn. intros o [Ho1 Ho2]. split; trivial.
    pose proof (descale_mono K _ _ ltac:(lia) H2). lia.
Qed.

Lemma falling_progress (n : nat) : forall acc,
  scale K x <= acc ->
  scale K x <= acc_after K acc (repeat x n) <= acc
  /\ (acc_after K acc (repeat x n) = scale K x
      \/ acc_after K acc (repeat x n) <= acc - Z.of_nat n).
Proof.
  induction n as [| n IH]; intros acc Hle; cbn [repeat acc_after].
  - split; [lia | right; lia].
  - pose proof (next_acc_down K acc x ltac:(lia) Hle) as [H1 H2].
    destruct (IH _ H1) as [[B1 B2] Hp]. split; [lia|].
    destruct (Z.eq_dec acc (scale K x)) as [Heq | Hne].
    + left. lia.
    + pose proof (next_acc_descends K acc x ltac:(lia) ltac:(lia)). lia.
Qed.

Lemma falling_settles (n : nat) :
  x <= 0 -> - scale K x <= Z.of_nat n ->
  settled K x (acc_after K 0 (repeat x n)).
Proof.
  intros Hx Hn.
  assert (H0 : scale K x <= 0).
  { unfold scale. pose proof (pow2_pos (2 * K) ltac:(lia)). nia. }
  destruct (falling_progress n 0 H0) as [[B1 B2] Hp].
  replace (acc_after K 0 (repeat x n)) with (scale K x) by lia.
  apply settled_at_target.
Qed.

End Constant.

(** ** Sample evaluations *)

(** A negative sample: the arithmetic shifts round towards minus
    infinity. *)
Example filter_minus_100 :
  filter 4 16 16 fresh (-100) = Some (-6, {| filtered := -1600 |}).
Proof. reflexivity. Qed.

(** A sample type narrower than [int]: the arithmetic is done in [int]. *)
Example filter_int8_in_int16 :
  filter 1 16 8 {| filtered := 20 |} 25 = Some (15, {| filtered := 60 |}).
Proof. reflexivity. Qed.

(** Three calls in a row. *)
Example run_three_calls :
  run 4 16 16 fresh [100; 100; 100] =
  Some ([6; 12; 18], {| filtered := 4506 |}).
Proof. reflexivity. Qed.

(** ** The algorithm of [filter] *)

Lemma spec_filter_eq (K acc x : Z) :
  0 <= K ->
  spec_filter K acc x = (descale K (next_acc K acc x), next_acc K acc x).
Proof.
  intros HK. unfold spec_filter, descale, next_acc, scale.
  rewrite Z.shiftl_mul_pow2 by lia.
  rewrite !Z.shiftr_div_pow2 by lia.
  reflexivity.
Qed.

(** C1 (amended).  For every [K >= 1] and every sample type of more than
    [2K] bits, on a platform whose [int] has more than [2K] bits (so that
    [1 << (2K - 1)] overflows neither [int] nor the sample type) and
    whenever no step overflows the sample type,
    a call computes exactly the four steps of the algorithm: the input
    is shifted left by [2K], the accumulator is subtracted from it, the
    difference shifted right arithmetically by [K] is added to the
    accumulator, and the value returned is the new accumulator plus
    [2 ^ (2K - 1)] shifted right by [2K]; the accumulator is the only thing
    that changes. *)
Theorem filter_refines_spec (K int_bits w : Z) (self : EMA) (input : Z) :
  config_ok K int_bits w = true ->
  no_overflow K w (filtered self) input ->
  filter K int_bits w self input =
  Some (fst (spec_filter K (filtered self) input),
        {| filtered := snd (spec_filter K (filtered self) input) |}).
Proof.
  intros Hcfg (Ha & Hs & Hd & Hr).
  destruct (config_bounds K int_bits w Hcfg) as (HK & _ & _).
  rewrite spec_filter_eq in * by lia. cbn [fst snd] in *.
  rewrite Z.shiftl_mul_pow2 in Hs, Hd by lia.
  now apply filter_exact.
Qed.

Lemma filter_refines_spec_witness :
  config_ok 3 32 32 = true
  /\ no_overflow 3 32 1000 (-7)
  /\ filter 3 32 32 {| filtered := 1000 |} (-7) =
     Some (13, {| filtered := 819 |}).
Proof.
  assert (Hc : config_ok 3 32 32 = true) by reflexivity.
  assert (Hn : no_overflow 3 32 1000 (-7))
    by (repeat split; apply fitsb_fits; reflexivity).
  split; [exact Hc | split; [exact Hn |]].
  exact (filter_refines_spec 3 32 32 {| filtered := 1000 |} (-7) Hc Hn).
Defined.

(** C2.  With [K = 4], a sample type of at least 16 bits and a fresh
    filter, [filter(100)] returns 6 and leaves 1600 in the accumulator. *)
Theorem literal_scenario (int_bits w : Z) :
  16 <= int_bits -> 16 <= w ->
  filter 4 int_bits w fresh 100 = Some (6, {| filtered := 1600 |}).
Proof.
  intros Hi Hw.
  assert (Hcfg : config_ok 4 int_bits w = true)
    by (apply config_ok_intro; lia).
  assert (Hp : 2 ^ 15 <= 2 ^ (w - 1)) by (apply pow2_le; lia).
  change (2 ^ 15) with 32768 in Hp.
  rewrite (filter_exact 4 int_bits w Hcfg); cbn [fresh filtered].
  - reflexivity.
  - unfold fits. lia.
  - change (scale 4 100) with 25600. unfold fits. lia.
  - change (scale 4 100 - 0) with 25600. unfold fits. lia.
  - change (next_acc 4 0 100 + 2 ^ (2 * 4 - 1)) with 1728. unfold fits. lia.
Qed.

Lemma literal_scenario_witness :
  filter 4 16 16 fresh 100 = Some (6, {| filtered := 1600 |}).
Proof.
  apply (literal_scenario 16 16); lia.
Defined.

(** ** Determinism *)

(** On one platform, two executions that start from a fresh filter and
    receive the same samples return the same values and end in the same
    state: [filter] reads and writes nothing but the object it is called
    on. *)
Theorem calls_deterministic (K int_bits w : Z) (inputs : list Z)
        (outs1 outs2 : list Z) (end1 end2 : EMA) :
  calls K int_bits w fresh inputs outs1 end1 ->
  calls K int_bits w fresh inputs outs2 end2 ->
  outs1 = outs2 /\ end1 = end2.
Proof.
  generalize fresh as self. intros self H1. revert outs2 end2.
  induction H1 as [| self x out self1 rest outs self2 Hf _ IH];
    intros outs2 end2 H2; inversion H2; subst.
  - split; reflexivity.
  - match goal with
    | H : filter _ _ _ self x = Some _ |- _ =>
        rewrite Hf in H; injection H as <- <-
    end.
    match goal with
    | H : calls _ _ _ self1 rest _ _ |- _ => destruct (IH _ _ H) as [<- <-]
    end.
    split; reflexivity.
Qed.

Lemma calls_deterministic_witness :
  calls 4 16 16 fresh [100; 100] [6; 12] {| filtered := 3100 |}
  /\ ([6; 12] = [6; 12] /\ {| filtered := 3100 |} = {| filtered := 3100 |}).
Proof.
  assert (H : calls 4 16 16 fresh [100; 100] [6; 12] {| filtered := 3100 |})
    by (apply calls_run; reflexivity).
  split; [exact H |].
  exact (calls_deterministic 4 16 16 [100; 100] _ _ _ _ H H).
Defined.

(** Under a valid configuration every sequence of samples has an
    execution, so the determinism above is about executions that exist. *)
Lemma calls_total (K int_bits w : Z) (inputs : list Z) :
  shifts_valid K int_bits w = true ->
  forall self, exists outs self', calls K int_bits w self inputs outs self'.
Proof.
  unfold shifts_valid. rewrite !andb_true_iff, !valid_shift_true.
  intros [[H1 H2] H3].
  induction inputs as [| x rest IH]; intros self.
  - exists [], self. constructor.
  - destruct (filter_defined K int_bits w self x) as [[out self1] Hf];
      try lia.
    destruct (IH self1) as (outs & self2 & Hc).
    exists (out :: outs), self2. econstructor; eauto.
Qed.

(** ** Zero input *)

(** Where the rounding constant is the positive power of two
    ([config_ok]), a fresh filter fed with zeros returns zero at every call
    and its accumulator stays zero. *)
Theorem zero_fixed_point (K int_bits w : Z) (n : nat) :
  config_ok K int_bits w = true ->
  run K int_bits w fresh (repeat 0 n) = Some (repeat 0 n, fresh).
Proof.
  intros Hcfg.
  destruct (config_bounds K int_bits w Hcfg) as (HK & Hi & Hw).
  assert (Hn : next_acc K 0 0 = 0) by (apply (next_acc_at_target K 0)).
  assert (Hd : descale K 0 = 0) by (apply (descale_scale K 0); lia).
  assert (Hf : filter K int_bits w fresh 0 = Some (0, fresh)).
  { rewrite (filter_exact K int_bits w Hcfg); cbn [fresh filtered].
    - rewrite Hn, Hd. reflexivity.
    - apply (half_fits K int_bits w Hcfg) in Hw. unfold fits in *. lia.
    - apply (half_fits K int_bits w Hcfg) in Hw. unfold fits, scale in *. lia.
    - apply (half_fits K int_bits w Hcfg) in Hw. unfold fits, scale in *. lia.
    - rewrite Hn. now apply (half_fits K int_bits w Hcfg). }
  induction n as [| n IH]; cbn [repeat run].
  - reflexivity.
  - rewrite Hf. cbn [bind fst snd]. rewrite IH. reflexivity.
Qed.

Lemma zero_fixed_point_witness :
  config_ok 4 16 32 = true
  /\ run 4 16 32 fresh [0; 0; 0] = Some ([0; 0; 0], fresh).
Proof.
  split; [reflexivity |].
  exact (zero_fixed_point 4 16 32 3 eq_refl).
Defined.

(** ** Constant input *)

Lemma Forall_repeat {A : Type} (P : A -> Prop) (a : A) (n : nat) :
  P a -> Forall P (repeat a n).
Proof. intros H. induction n; cbn; constructor; trivial. Qed.

Lemma scale_nonneg (K x : Z) : 0 <= K -> 0 <= x -> 0 <= scale K x.
Proof.
  intros HK Hx. unfold scale. pose proof (pow2_pos (2 * K) ltac:(lia)). nia.
Qed.

Lemma scale_nonpos (K x : Z) : 0 <= K -> x <= 0 -> scale K x <= 0.
Proof.
  intros HK Hx. unfold scale. pose proof (pow2_pos (2 * K) ltac:(lia)). nia.
Qed.

Lemma descale_0 (K : Z) : 1 <= K -> descale K 0 = 0.
Proof. intros HK. exact (descale_scale K 0 HK). Qed.

(** The filter follows the unbounded computation on every constant stream
    whose scaled value fits the sample type. *)
Section ConstantRuns.

Variables (K int_bits w : Z).
Hypothesis Hcfg : config_ok K int_bits w = true.

Lemma run_rising (x : Z) (n : nat) :
  0 <= x -> scale K x < 2 ^ (w - 1) ->
  run K int_bits w fresh (repeat x n) =
  Some (outs_of K 0 (repeat x n),
        {| filtered := acc_after K 0 (repeat x n) |}).
Proof.
  intros Hx Hfit.
  destruct (config_bounds K int_bits w Hcfg) as (HK & Hi & Hw).
  pose proof (scale_nonneg K x ltac:(lia) Hx) as Hs.
  pose proof (scale_headroom K w x HK Hw Hfit) as Hroom.
  pose proof (pow2_pos (2 * K - 1) ltac:(lia)) as Hhalf.
  apply (run_exact K int_bits w Hcfg
           (fun a => 0 <= a <= scale K x) (fun y => y = x)).
  - intros a y Ha ->. unfold fits.
    pose proof (next_acc_up K a x ltac:(lia) ltac:(lia)). lia.
  - intros a Ha. unfold fits. lia.
  - lia.
  - now apply Forall_repeat.
Qed.

Lemma run_falling (c : Z) (n : nat) :
  c <= 0 -> - 2 ^ (w - 1) <= scale K c ->
  run K int_bits w fresh (repeat c n) =
  Some (outs_of K 0 (repeat c n),
        {| filtered := acc_after K 0 (repeat c n) |}).
Proof.
  intros Hc Hfit.
  destruct (config_bounds K int_bits w Hcfg) as (HK & Hi & Hw).
  pose proof (scale_nonpos K c ltac:(lia) Hc) as Hs.
  pose proof (half_fits K int_bits w Hcfg w Hw) as Hhalf.
  pose proof (pow2_pos (2 * K - 1) ltac:(lia)) as Hpos.
  unfold fits in Hhalf.
  apply (run_exact K int_bits w Hcfg
           (fun a => scale K c <= a <= 0) (fun y => y = c)).
  - intros a y Ha ->. unfold fits.
    pose proof (next_acc_down K a c ltac:(lia) ltac:(lia)). lia.
  - intros a Ha. unfold fits. lia.
  - lia.
  - now apply Forall_repeat.
Qed.

End ConstantRuns.

(** With [K = 4] and a 16-bit sample type, a fresh filter fed with 100
    returns 86 at its 30th and again at its 31st call, long before it
    reaches 100, and 100 at its 85th and again at its 86th call: the values
    returned do not increase strictly, neither on the way to 100 nor
    after. *)
Lemma constant_100_returns_86_twice :
  exists outs self',
    run 4 16 16 fresh (repeat 100 86) = Some (outs, self')
    /\ nth 29 outs 0 = 86 /\ nth 30 outs 0 = 86
    /\ nth 84 outs 0 = 100 /\ nth 85 outs 0 = 100
    /\ strictly_increasing outs = false.
Proof.
  eexists. eexists. split; [vm_compute; reflexivity |].
  repeat split; reflexivity.
Qed.

(** C5 (amended).  On a platform whose [int] has more than [2K] bits, a
    fresh filter with [K >= 1] fed with a constant [x] whose scaled value
    fits the sample type (of more than [2K] bits) returns values that are
    monotonic but not strictly so (they never decrease for [x >= 0], never
    increase for [x <= 0]), that stay between 0 and [x] and so never
    overshoot [x], and that are all equal to [x] from call number
    [|x| * 2 ^ (2K)] on. *)
Theorem constant_input_converges (K int_bits w x : Z) (n : nat) :
  config_ok K int_bits w = true ->
  fits w (scale K x) ->
  exists outs self',
    run K int_bits w fresh (repeat x n) = Some (outs, self')
    /\ (0 <= x -> Sorted Z.le outs)
    /\ (x <= 0 -> Sorted Z.ge outs)
    /\ Forall (fun o => Z.min 0 x <= o <= Z.max 0 x) outs
    /\ skipn (Z.to_nat (Z.abs (scale K x))) outs =
       repeat x (n - Z.to_nat (Z.abs (scale K x))).
Proof.
  intros Hcfg [Hlo Hhi].
  destruct (config_bounds K int_bits w Hcfg) as (HK & Hi & Hw).
  exists (outs_of K 0 (repeat x n)).
  exists {| filtered := acc_after K 0 (repeat x n) |}.
  destruct (Z.le_gt_cases 0 x) as [Hx | Hx].
  - pose proof (scale_nonneg K x ltac:(lia) Hx) as Hs.
    split; [now apply run_rising |].
    split; [intros _; apply rising_sorted; lia |].
    split;
      [intros Hx'; apply falling_sorted;
       [lia | pose proof (scale_nonpos K x ltac:(lia) Hx'); lia] |].
    split.
    + pose proof (rising_bounds K x HK n 0 Hs) as B.
      rewrite descale_0 in B by trivial.
      eapply Forall_impl; [| exact B]. cbn beta. lia.
    + apply outs_of_skipn; trivial. apply rising_settles; trivial. lia.
  - pose proof (scale_nonpos K x ltac:(lia) ltac:(lia)) as Hs.
    split; [apply run_falling; trivial; lia |].
    split; [intros Hx'; lia |].
    split; [intros _; apply falling_sorted; lia |].
    split.
    + pose proof (falling_bounds K x HK n 0 Hs) as B.
      rewrite descale_0 in B by trivial.
      eapply Forall_impl; [| exact B]. cbn beta. lia.
    + apply outs_of_skipn; trivial. apply falling_settles; trivial; lia.
Qed.

Lemma constant_input_converges_witness :
  config_ok 1 16 16 = true /\ fits 16 (scale 1 2)
  /\ exists outs self',
       run 1 16 16 fresh (repeat 2 10) = Some (outs, self')
       /\ (0 <= 2 -> Sorted Z.le outs)
       /\ (2 <= 0 -> Sorted Z.ge outs)
       /\ Forall (fun o => Z.min 0 2 <= o <= Z.max 0 2) outs
       /\ skipn (Z.to_nat (Z.abs (scale 1 2))) outs =
          repeat 2 (10 - Z.to_nat (Z.abs (scale 1 2))).
Proof.
  assert (H1 : config_ok 1 16 16 = true) by reflexivity.
  assert (H2 : fits 16 (scale 1 2)) by (apply fitsb_fits; reflexivity).
  split; [exact H1 | split; [exact H2 |]].
  exact (constant_input_converges 1 16 16 2 10 H1 H2).
Defined.

(** Once a value returned on the way up equals [x], so do all later
    ones. *)
Lemma rising_reached (K x : Z) (m : nat) : forall acc,
  1 <= K -> acc <= scale K x -> descale K (next_acc K acc x) = x ->
  outs_of K acc (repeat x m) = repeat x m.
Proof.
  induction m as [| m IH]; intros acc HK Hle Hd; cbn [repeat outs_of].
  - reflexivity.
  - pose proof (next_acc_up K acc x ltac:(lia) Hle) as [H1 H2].
    rewrite Hd. f_equal. apply IH; trivial.
    pose proof (next_acc_up K _ x ltac:(lia) H2) as [H3 H4].
    pose proof (descale_mono K _ _ ltac:(lia) H3).
    pose proof (descale_mono K _ _ ltac:(lia) H4) as D.
    rewrite descale_scale in D by trivial. lia.
Qed.

(** The literal scenario continued: with [K = 4] and samples of at least
    16 bits, the 83rd call with the constant 100 still returns 99, and every
    call from the 84th on returns 100. *)
Lemma constant_100_settles (int_bits w : Z) (n : nat) :
  16 <= int_bits -> 16 <= w ->
  exists outs self',
    run 4 int_bits w fresh (repeat 100 n) = Some (outs, self')
    /\ ((83 <= n)%nat -> nth 82 outs 0 = 99)
    /\ skipn 83 outs = repeat 100 (n - 83).
Proof.
  intros Hi Hw.
  assert (Hcfg : config_ok 4 int_bits w = true)
    by (apply config_ok_intro; lia).
  assert (Hp : 2 ^ 15 <= 2 ^ (w - 1)) by (apply pow2_le; lia).
  change (2 ^ 15) with 32768 in Hp.
  exists (outs_of 4 0 (repeat 100 n)).
  exists {| filtered := acc_after 4 0 (repeat 100 n) |}.
  split; [| split].
  - apply run_rising; trivial; [lia |].
    change (scale 4 100) with 25600. lia.
  - intros Hn. replace n with (83 + (n - 83))%nat by lia.
    rewrite repeat_app, outs_of_app, app_nth1
      by (rewrite outs_of_length, repeat_length; lia).
    vm_compute. reflexivity.
  - apply outs_of_skipn_tail. intros m.
    apply rising_reached; [lia | vm_compute; discriminate
                          | vm_compute; reflexivity].
Qed.

(** *** How long the rise takes *)

Lemma rising_step_le (K acc x : Z) :
  0 <= K -> 0 <= acc -> next_acc K acc x <= acc + x * 2 ^ K.
Proof.
  intros HK Hacc. unfold next_acc, scale.
  pose proof (pow2_pos K HK) as HP.
  rewrite (pow2_2K K HK), Z.mul_assoc.
  assert ((x * 2 ^ K * 2 ^ K - acc) / 2 ^ K <= x * 2 ^ K).
  { apply Z.div_le_upper_bound; lia. }
  lia.
Qed.

Lemma rising_slowly (K x : Z) (n : nat) : forall acc,
  0 <= K -> 0 <= x -> 0 <= acc <= scale K x ->
  Forall (fun o => o <= descale K (acc + Z.of_nat n * (x * 2 ^ K)))
         (outs_of K acc (repeat x n)).
Proof.
  induction n as [| n IH]; intros acc HK Hx Hacc; cbn [repeat outs_of];
    constructor.
  - apply descale_mono; trivial.
    pose proof (rising_step_le K acc x HK ltac:(lia)).
    pose proof (pow2_pos K HK). nia.
  - pose proof (next_acc_up K acc x HK ltac:(lia)) as [H1 H2].
    eapply Forall_impl; [| apply IH; trivial; lia].
    cbn beta. intros o Ho. etransitivity; [exact Ho |].
    apply descale_mono; trivial.
    pose proof (rising_step_le K acc x HK ltac:(lia)). lia.
Qed.

(** Fed with the constant 3, a fresh filter returns at most 1 during its
    first [n] calls as long as [2 * n < 2 ^ K]: coming within one unit of the
    input takes at least [2 ^ (K - 1)] calls, a number that is not
    proportional to [K]. *)
Lemma settling_takes_exponentially_long (K int_bits w : Z) (n : nat) :
  config_ok K int_bits w = true ->
  scale K 3 < 2 ^ (w - 1) ->
  2 * Z.of_nat n < 2 ^ K ->
  exists outs self',
    run K int_bits w fresh (repeat 3 n) = Some (outs, self')
    /\ Forall (fun o => o <= 1) outs.
Proof.
  intros Hcfg Hfit Hn.
  destruct (config_bounds K int_bits w Hcfg) as (HK & Hi & Hw).
  exists (outs_of K 0 (repeat 3 n)).
  exists {| filtered := acc_after K 0 (repeat 3 n) |}.
  split; [apply run_rising; trivial; lia |].
  pose proof (scale_nonneg K 3 ltac:(lia) ltac:(lia)) as Hs.
  eapply Forall_impl; [| apply (rising_slowly K 3 n 0); lia].
  cbn beta. intros o Ho. etransitivity; [exact Ho |].
  unfold descale. rewrite Z.add_0_l.
  pose proof (pow2_pos K ltac:(lia)) as HP.
  pose proof (pow2_2K K ltac:(lia)) as HQ.
  pose proof (pow2_2K_half K HK) as HH.
  assert ((Z.of_nat n * (3 * 2 ^ K) + 2 ^ (2 * K - 1)) / 2 ^ (2 * K) < 2);
    [| lia].
  apply Z.div_lt_upper_bound; nia.
Qed.

(** ** Negative constant input *)

(** Where the rounding constant is the positive power of two
    ([config_ok]), a fresh filter fed with a negative constant [c] whose
    scaled value fits the sample type returns values that never
    increase, stay between [c] and 0, and are all equal to [c] from call
    number [- c * 2 ^ (2K)] on. *)
Theorem negative_input_converges (K int_bits w c : Z) (n : nat) :
  config_ok K int_bits w = true ->
  c < 0 ->
  - 2 ^ (w - 1) <= scale K c ->
  exists outs self',
    run K int_bits w fresh (repeat c n) = Some (outs, self')
    /\ Sorted Z.ge outs
    /\ Forall (fun o => c <= o <= 0) outs
    /\ skipn (Z.to_nat (- scale K c)) outs =
       repeat c (n - Z.to_nat (- scale K c)).
Proof.
  intros Hcfg Hc Hfit.
  destruct (config_bounds K int_bits w Hcfg) as (HK & Hi & Hw).
  pose proof (scale_nonpos K c ltac:(lia) ltac:(lia)) as Hs.
  exists (outs_of K 0 (repeat c n)).
  exists {| filtered := acc_after K 0 (repeat c n) |}.
  split; [apply run_falling; trivial; lia |].
  split; [apply falling_sorted; lia |].
  split.
  - pose proof (falling_bounds K c HK n 0 Hs) as B.
    now rewrite descale_0 in B.
  - apply outs_of_skipn; trivial. apply falling_settles; trivial; lia.
Qed.

Lemma negative_input_converges_witness :
  config_ok 1 16 16 = true /\ -3 < 0 /\ - 2 ^ (16 - 1) <= scale 1 (-3)
  /\ exists outs self',
       run 1 16 16 fresh (repeat (-3) 20) = Some (outs, self')
       /\ Sorted Z.ge outs
       /\ Forall (fun o => -3 <= o <= 0) outs
       /\ skipn (Z.to_nat (- scale 1 (-3))) outs =
          repeat (-3) (20 - Z.to_nat (- scale 1 (-3))).
Proof.
  assert (H1 : config_ok 1 16 16 = true) by reflexivity.
  assert (H2 : -3 < 0) by lia.
  assert (H3 : - 2 ^ (16 - 1) <= scale 1 (-3)) by (vm_compute; discriminate).
  split; [exact H1 | split; [exact H2 | split; [exact H3 |]]].
  exact (negative_input_converges 1 16 16 (-3) 20 H1 H2 H3).
Defined.

(** ** Decay of the prediction error *)

(** C7.  Across the accumulator update of a call the scaled prediction
    error [e = x * 2 ^ (2K) - accumulator] becomes [e - (e >> K)], which
    exceeds [(1 - 2 ^ -K) * e] by less than one: multiplied by [2 ^ K], the
    new error lies in [[(2 ^ K - 1) * e, (2 ^ K - 1) * e + 2 ^ K)]. *)
Theorem error_decay (K int_bits w : Z) (self : EMA) (x : Z) :
  config_ok K int_bits w = true ->
  fits w (filtered self) ->
  fits w (scale K x) ->
  fits w (scale K x - filtered self) ->
  exists out self',
    filter K int_bits w self x = Some (out, self')
    /\ let e := scale K x - filtered self in
       let e' := scale K x - filtered self' in
       e' = e - Z.shiftr e K
       /\ 0 <= 2 ^ K * e' - (2 ^ K - 1) * e < 2 ^ K.
Proof.
  intros Hcfg Ha Hs Hd.
  destruct (config_bounds K int_bits w Hcfg) as (HK & _ & _).
  rewrite (filter_state K int_bits w Hcfg) by trivial.
  eexists. eexists. split; [reflexivity |]. cbn [filtered].
  rewrite Z.shiftr_div_pow2 by lia. unfold next_acc.
  pose proof (pow2_pos K ltac:(lia)) as HP.
  pose proof (Z.div_mod (scale K x - filtered self) (2 ^ K) ltac:(lia)) as E.
  pose proof (Z.mod_pos_bound (scale K x - filtered self) (2 ^ K) HP) as B.
  split; [lia | nia].
Qed.

Lemma error_decay_witness :
  config_ok 4 16 16 = true
  /\ fits 16 (filtered fresh) /\ fits 16 (scale 4 100)
  /\ fits 16 (scale 4 100 - filtered fresh)
  /\ exists out self',
       filter 4 16 16 fresh 100 = Some (out, self')
       /\ let e := scale 4 100 - filtered fresh in
          let e' := scale 4 100 - filtered self' in
          e' = e - Z.shiftr e 4
          /\ 0 <= 2 ^ 4 * e' - (2 ^ 4 - 1) * e < 2 ^ 4.
Proof.
  assert (H1 : config_ok 4 16 16 = true) by reflexivity.
  assert (H2 : fits 16 (filtered fresh)) by (apply fitsb_fits; reflexivity).
  assert (H3 : fits 16 (scale 4 100)) by (apply fitsb_fits; reflexivity).
  assert (H4 : fits 16 (scale 4 100 - filtered fresh))
    by (apply fitsb_fits; reflexivity).
  split; [exact H1 | split; [exact H2 | split; [exact H3 | split; [exact H4 |]]]].
  exact (error_decay 4 16 16 fresh 100 H1 H2 H3 H4).
Defined.

(** ** The admissible shifts *)

(** With [K = 0] the rounding constant is [1 << -1]: it has no value, and
    neither has any call of [filter]. *)
Lemma filter_undefined_for_K_0 :
  fixedPointAHalf 0 32 32 = None /\ filter 0 32 32 fresh 1 = None.
Proof. split; reflexivity. Qed.

(** C8 (amended).  A call of [filter] has a value exactly when [K >= 1],
    the shift amount [2K - 1] of the rounding constant is smaller than the
    width of [int], and the shift amount [2K] is smaller than the width of
    the promoted sample type; in particular it has none for [K = 0]. *)
Theorem filter_defined_iff (K int_bits w : Z) (self : EMA) (x : Z) :
  (exists r, filter K int_bits w self x = Some r)
  <-> 1 <= K /\ 2 * K - 1 < int_bits /\ 2 * K < promoted int_bits w.
Proof.
  split.
  - intros [r Hr]. unfold filter, fixedPointAHalf, shl, shr in Hr.
    destruct (valid_shift (promoted int_bits w) (K * 2)) eqn:V1;
      cbn [bind] in Hr; [| discriminate].
    destruct (valid_shift (promoted int_bits w) K) eqn:V2;
      cbn [bind] in Hr; [| discriminate].
    destruct (valid_shift int_bits (K * 2 - 1)) eqn:V3;
      cbn [bind] in Hr; [| discriminate].
    apply valid_shift_true in V1, V2, V3. lia.
  - intros (HK & Hi & Hp). now apply filter_defined.
Qed.

(** On a platform whose [int] has 16 bits the rounding constant of
    [EMA<8, int32_t>] wraps to [-32768] in this model, and the filter then
    returns [-1] for a zero input: the condition on the width of [int] in
    [config_ok] cannot be dropped. *)
Remark rounding_constant_needs_wide_int :
  fixedPointAHalf 8 16 32 = Some (-32768)
  /\ filter 8 16 32 fresh 0 = Some (-1, fresh)
  /\ filter 8 32 32 fresh 0 = Some (0, fresh).
Proof. repeat split; reflexivity. Qed.

(** ** Bounds of the accumulator *)

Lemma scaled_min_max_zero (K : Z) (inputs : list Z) :
  scaled_min K inputs <= 0 <= scaled_max K inputs.
Proof.
  unfold scaled_min, scaled_max.
  induction inputs as [| y rest IH]; cbn; lia.
Qed.

Lemma scaled_min_max_In (K : Z) (inputs : list Z) (y : Z) :
  In y inputs -> scaled_min K inputs <= scale K y <= scaled_max K inputs.
Proof.
  unfold scaled_min, scaled_max.
  induction inputs as [| z rest IH]; cbn; [tauto |].
  intros [-> | H]; [| specialize (IH H)]; lia.
Qed.

Lemma scaled_min_max_firstn (K : Z) (inputs : list Z) : forall n,
  scaled_min K inputs <= scaled_min K (firstn n inputs)
  /\ scaled_max K (firstn n inputs) <= scaled_max K inputs.
Proof.
  induction inputs as [| y rest IH]; intros [| n]; cbn [firstn].
  - split; reflexivity.
  - split; reflexivity.
  - pose proof (scaled_min_max_zero K (y :: rest)).
    unfold scaled_min, scaled_max in *. cbn in *. lia.
  - specialize (IH n). unfold scaled_min, scaled_max in *. cbn in *. lia.
Qed.

(** The bounds after a whole sequence of samples. *)
Lemma accumulator_in_range (K int_bits w : Z) (inputs : list Z) :
  config_ok K int_bits w = true ->
  scaled_max K inputs - scaled_min K inputs < 2 ^ (w - 1) ->
  exists outs self',
    run K int_bits w fresh inputs = Some (outs, self')
    /\ scaled_min K inputs <= filtered self' <= scaled_max K inputs.
Proof.
  intros Hcfg Hrange.
  destruct (config_bounds K int_bits w Hcfg) as (HK & _ & _).
  pose proof (scaled_min_max_zero K inputs) as Hz.
  set (lo := scaled_min K inputs) in *.
  set (hi := scaled_max K inputs) in *.
  assert (Hstep : forall a y,
             lo <= a <= hi -> lo <= scale K y <= hi ->
             fits w a /\ fits w (scale K y) /\ fits w (scale K y - a)
             /\ lo <= next_acc K a y <= hi).
  { intros a y Ha Hy. unfold fits.
    pose proof (next_acc_between K a y ltac:(lia)). lia. }
  assert (Hin : Forall (fun y => lo <= scale K y <= hi) inputs).
  { apply Forall_forall. intros y Hy. now apply scaled_min_max_In. }
  destruct (run_state K int_bits w Hcfg _ _ Hstep inputs 0 Hz Hin)
    as [outs Hrun].
  exists outs, {| filtered := acc_after K 0 inputs |}.
  split; [exact Hrun |]. cbn [filtered].
  exact (acc_after_inv K w _ _ Hstep inputs 0 Hz Hin).
Qed.

(** C9.  Feed any sequence of samples to a fresh filter with [K >= 1].
    After each call, the [n]-th say, the accumulator lies between the
    smallest and the largest scaled sample among the first [n], zero
    included, provided the distance between the extreme scaled samples of
    the sequence fits the sample type. *)
Theorem accumulator_bounded (K int_bits w : Z) (inputs : list Z) (n : nat) :
  config_ok K int_bits w = true ->
  scaled_max K inputs - scaled_min K inputs < 2 ^ (w - 1) ->
  exists outs self',
    run K int_bits w fresh (firstn n inputs) = Some (outs, self')
    /\ scaled_min K (firstn n inputs) <= filtered self'
       <= scaled_max K (firstn n inputs).
Proof.
  intros Hcfg Hrange.
  apply accumulator_in_range; trivial.
  pose proof (scaled_min_max_firstn K inputs n). lia.
Qed.

Lemma accumulator_bounded_witness :
  config_ok 2 16 16 = true
  /\ scaled_max 2 [5; -3; 7] - scaled_min 2 [5; -3; 7] < 2 ^ (16 - 1)
  /\ exists outs self',
       run 2 16 16 fresh (firstn 2 [5; -3; 7]) = Some (outs, self')
       /\ scaled_min 2 (firstn 2 [5; -3; 7]) <= filtered self'
          <= scaled_max 2 (firstn 2 [5; -3; 7]).
Proof.
  assert (H1 : config_ok 2 16 16 = true) by reflexivity.
  assert (H2 : scaled_max 2 [5; -3; 7] - scaled_min 2 [5; -3; 7]
               < 2 ^ (16 - 1)) by reflexivity.
  split; [exact H1 | split; [exact H2 |]].
  exact (accumulator_bounded 2 16 16 [5; -3; 7] 2 H1 H2).
Defined.

(** ** Scaled fixed points *)

(** Where the rounding constant is the positive power of two
    ([config_ok]), a filter whose accumulator holds [x * 2 ^ (2K)] returns
    [x] for the sample [x] and leaves the accumulator as it is, whatever the
    sign of [x]. *)
Theorem scaled_fixed_point (K int_bits w : Z) (self : EMA) (x : Z) :
  config_ok K int_bits w = true ->
  fits w (filtered self) ->
  filtered self = x * 2 ^ (2 * K) ->
  filter K int_bits w self x = Some (x, self).
Proof.
  intros Hcfg Ha Heq. fold (scale K x) in Heq.
  destruct (config_bounds K int_bits w Hcfg) as (HK & Hi & Hw).
  destruct self as [acc]. cbn [filtered] in *. subst acc.
  pose proof (pow2_pos (2 * K - 1) ltac:(lia)) as Hpos.
  pose proof (half_fits K int_bits w Hcfg w Hw) as Hhalf.
  rewrite (filter_exact K int_bits w Hcfg); cbn [filtered];
    rewrite ?next_acc_at_target, ?Z.sub_diag; trivial.
  - now rewrite descale_scale.
  - unfold fits in *. lia.
  - pose proof (scale_headroom K w x HK Hw ltac:(unfold fits in Ha; lia)).
    unfold fits in *. lia.
Qed.

Lemma scaled_fixed_point_witness :
  config_ok 4 16 16 = true
  /\ fits 16 (filtered {| filtered := -25600 |})
  /\ filtered {| filtered := -25600 |} = -100 * 2 ^ (2 * 4)
  /\ filter 4 16 16 {| filtered := -25600 |} (-100) =
     Some (-100, {| filtered := -25600 |}).
Proof.
  assert (H1 : config_ok 4 16 16 = true) by reflexivity.
  assert (H2 : fits 16 (filtered {| filtered := -25600 |}))
    by (apply fitsb_fits; reflexivity).
  assert (H3 : filtered {| filtered := -25600 |} = -100 * 2 ^ (2 * 4))
    by reflexivity.
  split; [exact H1 | split; [exact H2 | split; [exact H3 |]]].
  exact (scaled_fixed_point 4 16 16 {| filtered := -25600 |} (-100) H1 H2 H3).
Defined.

(** * Further properties of [filter] *)

(** ** More arithmetic of the update and of the read-out *)

Lemma no_overflow_elim (K w acc x : Z) :
  0 <= K ->
  no_overflow K w acc x ->
  fits w acc /\ fits w (scale K x) /\ fits w (scale K x - acc)
  /\ fits w (next_acc K acc x + 2 ^ (2 * K - 1)).
Proof.
  intros HK (Ha & Hs & Hd & Hr).
  rewrite spec_filter_eq in Hr by lia. cbn [snd] in Hr.
  rewrite Z.shiftl_mul_pow2 in Hs, Hd by lia.
  auto.
Qed.

(** A call without overflow, in terms of the reference computation. *)
Lemma filter_no_overflow (K int_bits w : Z) (self : EMA) (x : Z) :
  config_ok K int_bits w = true ->
  no_overflow K w (filtered self) x ->
  filter K int_bits w self x =
  Some (descale K (next_acc K (filtered self) x),
        {| filtered := next_acc K (filtered self) x |}).
Proof.
  intros Hcfg Hno.
  destruct (config_bounds K int_bits w Hcfg) as (HK & _ & _).
  destruct (no_overflow_elim K w _ x ltac:(lia) Hno) as (Ha & Hs & Hd & Hr).
  now apply filter_exact.
Qed.

Lemma scale_mono (K x y : Z) : 0 <= K -> x <= y -> scale K x <= scale K y.
Proof.
  intros HK Hxy. unfold scale. pose proof (pow2_pos (2 * K) ltac:(lia)). nia.
Qed.

Lemma scale_add (K x c : Z) : scale K (x + c) = scale K x + scale K c.
Proof. unfold scale. lia. Qed.

(** The update is a floor of a weighted sum, hence monotone in the
    accumulator and in the sample. *)
Lemma next_acc_weighted (K acc x : Z) :
  0 <= K ->
  next_acc K acc x = (scale K x + (2 ^ K - 1) * acc) / 2 ^ K.
Proof.
  intros HK. unfold next_acc. pose proof (pow2_pos K HK) as HP.
  rewrite <- (Z.div_add_l acc (2 ^ K) (scale K x - acc)) by lia.
  f_equal. lia.
Qed.

Lemma next_acc_mono (K a b x y : Z) :
  0 <= K -> a <= b -> x <= y -> next_acc K a x <= next_acc K b y.
Proof.
  intros HK Hab Hxy. rewrite !next_acc_weighted by trivial.
  pose proof (pow2_pos K HK) as HP.
  pose proof (scale_mono K x y HK Hxy).
  apply Z.div_le_mono; [lia | nia].
Qed.

Lemma next_acc_shift (K acc x c : Z) :
  next_acc K (acc + scale K c) (x + c) = next_acc K acc x + scale K c.
Proof.
  unfold next_acc. rewrite scale_add.
  replace (scale K x + scale K c - (acc + scale K c))
    with (scale K x - acc) by lia.
  lia.
Qed.

Lemma descale_shift (K acc c : Z) :
  0 <= K -> descale K (acc + scale K c) = descale K acc + c.
Proof.
  intros HK. unfold descale, scale.
  pose proof (pow2_pos (2 * K) ltac:(lia)) as HQ.
  replace (acc + c * 2 ^ (2 * K) + 2 ^ (2 * K - 1))
    with (acc + 2 ^ (2 * K - 1) + c * 2 ^ (2 * K)) by lia.
  rewrite Z.div_add by lia. reflexivity.
Qed.

(** The read-out is the accumulator rounded to the nearest multiple of
    [2 ^ (2K)], halves up. *)
Lemma descale_nearest (K acc : Z) :
  1 <= K ->
  scale K (descale K acc) - 2 ^ (2 * K - 1) <= acc
  < scale K (descale K acc) + 2 ^ (2 * K - 1).
Proof.
  intros HK. unfold descale, scale.
  pose proof (pow2_2K_half K HK) as E.
  pose proof (pow2_pos (2 * K - 1) ltac:(lia)) as HH.
  pose proof (Z.div_mod (acc + 2 ^ (2 * K - 1)) (2 ^ (2 * K)) ltac:(lia)) as D.
  pose proof (Z.mod_pos_bound (acc + 2 ^ (2 * K - 1)) (2 ^ (2 * K))
                ltac:(lia)) as B.
  lia.
Qed.

(** From a zero accumulator the update is a multiplication by [2 ^ K] and
    the read-out a rounded division by [2 ^ K]. *)
Lemma next_acc_fresh (K x : Z) : 0 <= K -> next_acc K 0 x = x * 2 ^ K.
Proof.
  intros HK. unfold next_acc, scale. pose proof (pow2_pos K HK) as HP.
  rewrite Z.sub_0_r, (pow2_2K K HK), Z.mul_assoc, Z.div_mul by lia. lia.
Qed.

Lemma descale_fresh (K x : Z) :
  1 <= K -> descale K (x * 2 ^ K) = (x + 2 ^ (K - 1)) / 2 ^ K.
Proof.
  intros HK. unfold descale. pose proof (pow2_pos K ltac:(lia)) as HP.
  assert (E : 2 ^ (2 * K - 1) = 2 ^ (K - 1) * 2 ^ K).
  { rewrite <- Z.pow_add_r by lia. f_equal. lia. }
  rewrite E, (pow2_2K K ltac:(lia)), <- Z.mul_add_distr_r.
  rewrite Z.div_mul_cancel_r by lia. reflexivity.
Qed.

(** ** Single calls *)

(** X1.  Under a valid configuration ([K >= 1] and [2K] smaller than the
    widths of [int] and of the sample type), the first call on a fresh
    filter returns the sample divided by [2 ^ K] and rounded to nearest
    (halves up), and leaves the sample times [2 ^ K] in the accumulator,
    whenever the scaled sample fits the sample type. *)
Theorem first_call_rounds (K int_bits w x : Z) :
  config_ok K int_bits w = true ->
  fits w (scale K x) ->
  filter K int_bits w fresh x =
  Some ((x + 2 ^ (K - 1)) / 2 ^ K, {| filtered := x * 2 ^ K |}).
Proof.
  intros Hcfg Hs.
  destruct (config_bounds K int_bits w Hcfg) as (HK & Hi & Hw).
  pose proof (half_fits K int_bits w Hcfg w Hw) as Hhalf.
  pose proof (pow2_pos K ltac:(lia)) as HP.
  pose proof (pow2_pos (2 * K - 1) ltac:(lia)) as HH.
  pose proof (pow2_2K K ltac:(lia)) as HQ.
  rewrite (filter_exact K int_bits w Hcfg); cbn [fresh filtered];
    rewrite ?next_acc_fresh, ?Z.sub_0_r by lia; trivial.
  - now rewrite descale_fresh.
  - unfold fits in *. lia.
  - destruct (Z.le_gt_cases 0 x) as [Hx | Hx].
    + assert (scale K x + 2 ^ (2 * K - 1) < 2 ^ (w - 1))
        by (apply scale_headroom; unfold fits in Hs; lia).
      unfold fits, scale in *. nia.
    + unfold fits, scale in *. nia.
Qed.

Lemma first_call_rounds_witness :
  config_ok 3 16 16 = true /\ fits 16 (scale 3 (-20))
  /\ filter 3 16 16 fresh (-20) = Some (-2, {| filtered := -160 |}).
Proof.
  assert (H1 : config_ok 3 16 16 = true) by reflexivity.
  assert (H2 : fits 16 (scale 3 (-20))) by (apply fitsb_fits; reflexivity).
  split; [exact H1 | split; [exact H2 |]].
  exact (first_call_rounds 3 16 16 (-20) H1 H2).
Defined.

(** X2.  Under a valid configuration ([K >= 1] and [2K] smaller than the
    widths of [int] and of the sample type) and when no step of the call
    overflows the sample type, the value a call returns is its new
    accumulator divided by [2 ^ (2K)] and rounded to nearest: the
    accumulator is at most half a unit, [2 ^ (2K - 1)], away from the value
    returned times [2 ^ (2K)]. *)
Theorem output_is_rounded_accumulator (K int_bits w : Z) (self : EMA) (x : Z) :
  config_ok K int_bits w = true ->
  no_overflow K w (filtered self) x ->
  exists out self',
    filter K int_bits w self x = Some (out, self')
    /\ out * 2 ^ (2 * K) - 2 ^ (2 * K - 1) <= filtered self'
       < out * 2 ^ (2 * K) + 2 ^ (2 * K - 1).
Proof.
  intros Hcfg Hno.
  destruct (config_bounds K int_bits w Hcfg) as (HK & _ & _).
  rewrite (filter_no_overflow K int_bits w self x Hcfg Hno).
  eexists. eexists. split; [reflexivity |]. cbn [filtered].
  exact (descale_nearest K _ HK).
Qed.

Lemma output_is_rounded_accumulator_witness :
  config_ok 3 32 32 = true /\ no_overflow 3 32 1000 (-7)
  /\ exists out self',
       filter 3 32 32 {| filtered := 1000 |} (-7) = Some (out, self')
       /\ out * 2 ^ (2 * 3) - 2 ^ (2 * 3 - 1) <= filtered self'
          < out * 2 ^ (2 * 3) + 2 ^ (2 * 3 - 1).
Proof.
  assert (H1 : config_ok 3 32 32 = true) by reflexivity.
  assert (H2 : no_overflow 3 32 1000 (-7))
    by (repeat split; apply fitsb_fits; reflexivity).
  split; [exact H1 | split; [exact H2 |]].
  exact (output_is_rounded_accumulator 3 32 32 {| filtered := 1000 |} (-7)
           H1 H2).
Defined.

(** X3.  Under a valid configuration ([K >= 1] and [2K] smaller than the
    widths of [int] and of the sample type) and for two consecutive calls
    without overflow, the value returned by the second call lies between the
    value returned by the first and the new sample: the filter moves towards
    its input and never past it. *)
Theorem output_between_previous_and_input
        (K int_bits w : Z) (self : EMA) (x1 x2 o1 o2 : Z) (self1 self2 : EMA) :
  config_ok K int_bits w = true ->
  no_overflow K w (filtered self) x1 ->
  no_overflow K w (filtered self1) x2 ->
  filter K int_bits w self x1 = Some (o1, self1) ->
  filter K int_bits w self1 x2 = Some (o2, self2) ->
  Z.min o1 x2 <= o2 <= Z.max o1 x2.
Proof.
  intros Hcfg Hno1 Hno2 Hf1 Hf2.
  destruct (config_bounds K int_bits w Hcfg) as (HK & _ & _).
  rewrite (filter_no_overflow K int_bits w self x1 Hcfg Hno1) in Hf1.
  injection Hf1 as <- <-.
  rewrite (filter_no_overflow K int_bits w _ x2 Hcfg Hno2) in Hf2.
  injection Hf2 as <- <-. cbn [filtered].
  set (a := next_acc K (filtered self) x1).
  pose proof (next_acc_between K a x2 ltac:(lia)) as [B1 B2].
  pose proof (descale_scale K x2 HK) as E.
  destruct (Z.le_gt_cases a (scale K x2)) as [H | H].
  - pose proof (descale_mono K a (next_acc K a x2) ltac:(lia) ltac:(lia)).
    pose proof (descale_mono K (next_acc K a x2) (scale K x2)
                  ltac:(lia) ltac:(lia)).
    lia.
  - pose proof (descale_mono K (next_acc K a x2) a ltac:(lia) ltac:(lia)).
    pose proof (descale_mono K (scale K x2) (next_acc K a x2)
                  ltac:(lia) ltac:(lia)).
    lia.
Qed.

Lemma output_between_previous_and_input_witness :
  config_ok 4 16 16 = true
  /\ no_overflow 4 16 (filtered fresh) 100
  /\ no_overflow 4 16 1600 (-50)
  /\ filter 4 16 16 fresh 100 = Some (6, {| filtered := 1600 |})
  /\ filter 4 16 16 {| filtered := 1600 |} (-50)
     = Some (3, {| filtered := 700 |})
  /\ Z.min 6 (-50) <= 3 <= Z.max 6 (-50).
Proof.
  assert (H1 : config_ok 4 16 16 = true) by reflexivity.
  assert (H2 : no_overflow 4 16 (filtered fresh) 100)
    by (repeat split; apply fitsb_fits; reflexivity).
  assert (H3 : no_overflow 4 16 1600 (-50))
    by (repeat split; apply fitsb_fits; reflexivity).
  assert (H4 : filter 4 16 16 fresh 100 = Some (6, {| filtered := 1600 |}))
    by reflexivity.
  assert (H5 : filter 4 16 16 {| filtered := 1600 |} (-50)
               = Some (3, {| filtered := 700 |})) by reflexivity.
  split; [exact H1 | split; [exact H2 | split; [exact H3 |
    split; [exact H4 | split; [exact H5 |]]]]].
  exact (output_between_previous_and_input 4 16 16 fresh 100 (-50) 6 3
           {| filtered := 1600 |} {| filtered := 700 |}
           H1 H2 H3 H4 H5).
Defined.

(** X4.  Adding a constant [c] to the sample and [c * 2 ^ (2K)] to the
    accumulator adds [c] to the value returned and [c * 2 ^ (2K)] to the new
    accumulator: the filter has no preferred level. *)
Theorem offset_invariance (K int_bits w : Z) (self : EMA) (x c : Z) :
  config_ok K int_bits w = true ->
  no_overflow K w (filtered self) x ->
  no_overflow K w (filtered self + c * 2 ^ (2 * K)) (x + c) ->
  exists out self',
    filter K int_bits w self x = Some (out, self')
    /\ filter K int_bits w
         {| filtered := filtered self + c * 2 ^ (2 * K) |} (x + c) =
       Some (out + c, {| filtered := filtered self' + c * 2 ^ (2 * K) |}).
Proof.
  intros Hcfg Hno1 Hno2.
  destruct (config_bounds K int_bits w Hcfg) as (HK & _ & _).
  rewrite (filter_no_overflow K int_bits w self x Hcfg Hno1).
  eexists. eexists. split; [reflexivity |].
  rewrite (filter_no_overflow K int_bits w
             {| filtered := filtered self + c * 2 ^ (2 * K) |} (x + c)
             Hcfg Hno2).
  cbn [filtered]. fold (scale K c).
  rewrite next_acc_shift, descale_shift by lia. reflexivity.
Qed.

Lemma offset_invariance_witness :
  config_ok 4 16 16 = true
  /\ no_overflow 4 16 (filtered fresh) 10
  /\ no_overflow 4 16 (filtered fresh + (-30) * 2 ^ (2 * 4)) (10 + (-30))
  /\ exists out self',
       filter 4 16 16 fresh 10 = Some (out, self')
       /\ filter 4 16 16
            {| filtered := filtered fresh + (-30) * 2 ^ (2 * 4) |}
            (10 + (-30)) =
          Some (out + (-30),
                {| filtered := filtered self' + (-30) * 2 ^ (2 * 4) |}).
Proof.
  assert (H1 : config_ok 4 16 16 = true) by reflexivity.
  assert (H2 : no_overflow 4 16 (filtered fresh) 10)
    by (repeat split; apply fitsb_fits; reflexivity).
  assert (H3 : no_overflow 4 16 (filtered fresh + (-30) * 2 ^ (2 * 4))
                 (10 + (-30)))
    by (repeat split; apply fitsb_fits; reflexivity).
  split; [exact H1 | split; [exact H2 | split; [exact H3 |]]].
  exact (offset_invariance 4 16 16 fresh 10 (-30) H1 H2 H3).
Defined.

(** X5.  Under a valid configuration and without overflow the result of a
    call does not depend on the width of the platform's [int]. *)
Theorem int_width_irrelevant (K bits1 bits2 w : Z) (self : EMA) (x : Z) :
  config_ok K bits1 w = true ->
  config_ok K bits2 w = true ->
  no_overflow K w (filtered self) x ->
  filter K bits1 w self x = filter K bits2 w self x.
Proof.
  intros H1 H2 Hno.
  rewrite (filter_no_overflow K bits1 w self x H1 Hno).
  rewrite (filter_no_overflow K bits2 w self x H2 Hno).
  reflexivity.
Qed.

Lemma int_width_irrelevant_witness :
  config_ok 4 16 16 = true /\ config_ok 4 32 16 = true
  /\ no_overflow 4 16 (filtered fresh) 100
  /\ filter 4 16 16 fresh 100 = filter 4 32 16 fresh 100.
Proof.
  assert (H1 : config_ok 4 16 16 = true) by reflexivity.
  assert (H2 : config_ok 4 32 16 = true) by reflexivity.
  assert (H3 : no_overflow 4 16 (filtered fresh) 100)
    by (repeat split; apply fitsb_fits; reflexivity).
  split; [exact H1 | split; [exact H2 | split; [exact H3 |]]].
  exact (int_width_irrelevant 4 16 32 16 fresh 100 H1 H2 H3).
Defined.

(** When the rounding addition overflows a 16-bit sample type, a 16-bit
    [int] and a 32-bit [int] give different values: the absence of overflow
    cannot be dropped above. *)
Example int_width_matters_on_overflow :
  filter 4 16 16 {| filtered := 32700 |} 127
  = Some (-128, {| filtered := 32688 |})
  /\ filter 4 32 16 {| filtered := 32700 |} 127
     = Some (128, {| filtered := 32688 |}).
Proof. split; reflexivity. Qed.

(** ** Sequences of calls within a range of samples *)

Lemma outs_of_range (K lo hi : Z) (inputs : list Z) : forall acc,
  1 <= K ->
  scale K lo <= acc <= scale K hi ->
  Forall (fun x => lo <= x <= hi) inputs ->
  Forall (fun o => lo <= o <= hi) (outs_of K acc inputs).
Proof.
  induction inputs as [| x rest IH]; intros acc HK Hacc Hin; cbn [outs_of];
    constructor; inversion Hin as [| ? ? Hx Hrest]; subst.
  - pose proof (next_acc_between K acc x ltac:(lia)).
    pose proof (scale_mono K lo x ltac:(lia) ltac:(lia)).
    pose proof (scale_mono K x hi ltac:(lia) ltac:(lia)).
    pose proof (descale_mono K (scale K lo) (next_acc K acc x)
                  ltac:(lia) ltac:(lia)) as D1.
    pose proof (descale_mono K (next_acc K acc x) (scale K hi)
                  ltac:(lia) ltac:(lia)) as D2.
    rewrite descale_scale in D1, D2 by trivial. lia.
  - apply IH; trivial.
    pose proof (next_acc_between K acc x ltac:(lia)).
    pose proof (scale_mono K lo x ltac:(lia) ltac:(lia)).
    pose proof (scale_mono K x hi ltac:(lia) ltac:(lia)).
    lia.
Qed.

Lemma outs_of_mono (K : Z) (ins1 ins2 : list Z) :
  0 <= K ->
  Forall2 Z.le ins1 ins2 ->
  forall a b, a <= b ->
  Forall2 Z.le (outs_of K a ins1) (outs_of K b ins2)
  /\ acc_after K a ins1 <= acc_after K b ins2.
Proof.
  intros HK H. induction H as [| x y r1 r2 Hxy _ IH]; intros a b Hab;
    cbn [outs_of acc_after].
  - split; [constructor | exact Hab].
  - pose proof (next_acc_mono K a b x y HK Hab Hxy) as Hn.
    destruct (IH _ _ Hn) as [IH1 IH2].
    split; [constructor; trivial; now apply descale_mono | exact IH2].
Qed.

(** The filter follows the unbounded computation as long as the samples
    and the accumulator stay within a range that the sample type can
    hold. *)
Lemma run_in_range (K int_bits w lo hi : Z) (inputs : list Z) (acc : Z) :
  config_ok K int_bits w = true ->
  - 2 ^ (w - 1) <= scale K lo ->
  scale K hi < 2 ^ (w - 1) ->
  scale K hi - scale K lo < 2 ^ (w - 1) ->
  scale K lo <= acc <= scale K hi ->
  Forall (fun x => lo <= x <= hi) inputs ->
  run K int_bits w {| filtered := acc |} inputs =
  Some (outs_of K acc inputs, {| filtered := acc_after K acc inputs |}).
Proof.
  intros Hcfg Hlo Hhi Hrange Hacc Hin.
  destruct (config_bounds K int_bits w Hcfg) as (HK & Hi & Hw).
  pose proof (scale_headroom K w hi HK Hw Hhi) as Hroom.
  pose proof (pow2_pos (2 * K - 1) ltac:(lia)) as Hhalf.
  apply (run_exact K int_bits w Hcfg
           (fun a => scale K lo <= a <= scale K hi)
           (fun x => lo <= x <= hi)); trivial.
  - intros a x Ha Hx. unfold fits.
    pose proof (next_acc_between K a x ltac:(lia)).
    pose proof (scale_mono K lo x ltac:(lia) ltac:(lia)).
    pose proof (scale_mono K x hi ltac:(lia) ltac:(lia)).
    lia.
  - intros a Ha. unfold fits. lia.
Qed.

Lemma range_around_zero (K w lo hi : Z) :
  0 <= K -> lo <= 0 <= hi ->
  scale K hi - scale K lo < 2 ^ (w - 1) ->
  - 2 ^ (w - 1) <= scale K lo /\ scale K hi < 2 ^ (w - 1)
  /\ scale K lo <= 0 <= scale K hi.
Proof.
  intros HK Hz Hrange.
  pose proof (scale_nonpos K lo HK ltac:(lia)).
  pose proof (scale_nonneg K hi HK ltac:(lia)).
  lia.
Qed.

(** X6.  Under a valid configuration ([K >= 1] and [2K] smaller than the
    widths of [int] and of the sample type), a fresh filter fed with samples
    between [lo <= 0] and [hi >= 0] only returns values between [lo] and
    [hi], provided the distance between the scaled bounds fits the sample
    type. *)
Theorem outputs_within_input_range
        (K int_bits w lo hi : Z) (inputs : list Z) :
  config_ok K int_bits w = true ->
  lo <= 0 <= hi ->
  scale K hi - scale K lo < 2 ^ (w - 1) ->
  Forall (fun x => lo <= x <= hi) inputs ->
  exists outs self',
    run K int_bits w fresh inputs = Some (outs, self')
    /\ Forall (fun o => lo <= o <= hi) outs.
Proof.
  intros Hcfg Hz Hrange Hin.
  destruct (config_bounds K int_bits w Hcfg) as (HK & _ & _).
  destruct (range_around_zero K w lo hi ltac:(lia) Hz Hrange)
    as (Hlo & Hhi & Hzero).
  exists (outs_of K 0 inputs), {| filtered := acc_after K 0 inputs |}.
  split.
  - now apply (run_in_range K int_bits w lo hi).
  - now apply outs_of_range.
Qed.

Lemma outputs_within_input_range_witness :
  config_ok 2 16 16 = true /\ -3 <= 0 <= 7
  /\ scale 2 7 - scale 2 (-3) < 2 ^ (16 - 1)
  /\ Forall (fun x => -3 <= x <= 7) [5; -3; 7]
  /\ exists outs self',
       run 2 16 16 fresh [5; -3; 7] = Some (outs, self')
       /\ Forall (fun o => -3 <= o <= 7) outs.
Proof.
  assert (H1 : config_ok 2 16 16 = true) by reflexivity.
  assert (H2 : -3 <= 0 <= 7) by lia.
  assert (H3 : scale 2 7 - scale 2 (-3) < 2 ^ (16 - 1)) by reflexivity.
  assert (H4 : Forall (fun x => -3 <= x <= 7) [5; -3; 7])
    by (repeat constructor; lia).
  split; [exact H1 | split; [exact H2 | split; [exact H3 | split;
    [exact H4 |]]]].
  exact (outputs_within_input_range 2 16 16 (-3) 7 [5; -3; 7] H1 H2 H3 H4).
Defined.

(** X7.  The filter preserves order: of two sequences of samples where
    each sample of the first is at most the corresponding sample of the
    second, the first yields, call by call, values that are at most those of
    the second, and ends with the smaller accumulator. *)
Theorem run_monotone (K int_bits w lo hi : Z) (ins1 ins2 : list Z) :
  config_ok K int_bits w = true ->
  lo <= 0 <= hi ->
  scale K hi - scale K lo < 2 ^ (w - 1) ->
  Forall (fun x => lo <= x <= hi) ins1 ->
  Forall (fun x => lo <= x <= hi) ins2 ->
  Forall2 Z.le ins1 ins2 ->
  exists outs1 end1 outs2 end2,
    run K int_bits w fresh ins1 = Some (outs1, end1)
    /\ run K int_bits w fresh ins2 = Some (outs2, end2)
    /\ Forall2 Z.le outs1 outs2
    /\ filtered end1 <= filtered end2.
Proof.
  intros Hcfg Hz Hrange Hin1 Hin2 Hle.
  destruct (config_bounds K int_bits w Hcfg) as (HK & _ & _).
  destruct (range_around_zero K w lo hi ltac:(lia) Hz Hrange)
    as (Hlo & Hhi & Hzero).
  exists (outs_of K 0 ins1), {| filtered := acc_after K 0 ins1 |}.
  exists (outs_of K 0 ins2), {| filtered := acc_after K 0 ins2 |}.
  split; [now apply (run_in_range K int_bits w lo hi) |].
  split; [now apply (run_in_range K int_bits w lo hi) |].
  cbn [filtered]. apply outs_of_mono; trivial; lia.
Qed.

Lemma run_monotone_witness :
  config_ok 2 16 16 = true /\ -3 <= 0 <= 7
  /\ scale 2 7 - scale 2 (-3) < 2 ^ (16 - 1)
  /\ Forall (fun x => -3 <= x <= 7) [5; -3; 2]
  /\ Forall (fun x => -3 <= x <= 7) [5; 0; 7]
  /\ Forall2 Z.le [5; -3; 2] [5; 0; 7]
  /\ exists outs1 end1 outs2 end2,
       run 2 16 16 fresh [5; -3; 2] = Some (outs1, end1)
       /\ run 2 16 16 fresh [5; 0; 7] = Some (outs2, end2)
       /\ Forall2 Z.le outs1 outs2
       /\ filtered end1 <= filtered end2.
Proof.
  assert (H1 : config_ok 2 16 16 = true) by reflexivity.
  assert (H2 : -3 <= 0 <= 7) by lia.
  assert (H3 : scale 2 7 - scale 2 (-3) < 2 ^ (16 - 1)) by reflexivity.
  assert (H4 : Forall (fun x => -3 <= x <= 7) [5; -3; 2])
    by (repeat constructor; lia).
  assert (H5 : Forall (fun x => -3 <= x <= 7) [5; 0; 7])
    by (repeat constructor; lia).
  assert (H6 : Forall2 Z.le [5; -3; 2] [5; 0; 7])
    by (repeat constructor; lia).
  split; [exact H1 | split; [exact H2 | split; [exact H3 | split;
    [exact H4 | split; [exact H5 | split; [exact H6 |]]]]]].
  exact (run_monotone 2 16 16 (-3) 7 [5; -3; 2] [5; 0; 7]
           H1 H2 H3 H4 H5 H6).
Defined.

(** X8.  On a platform whose [int] has more than [2K] bits and for
    [K >= 1], the sizing rule of the documentation is sound for unsigned
    samples: when every sample is non-negative and shorter than [M] bits and
    the sample type has at least [M + 1 + 2K] bits, no call overflows, the
    filter agrees with the computation in unbounded integers, and every
    value returned is again non-negative and shorter than [M] bits.  (The
    rule alone is not enough: it says nothing about the width of [int].) *)
Theorem documented_width_suffices
        (K int_bits w M : Z) (inputs : list Z) :
  config_ok K int_bits w = true ->
  0 <= M ->
  M + 1 + 2 * K <= w ->
  Forall (fun x => 0 <= x < 2 ^ M) inputs ->
  exists outs self',
    run K int_bits w fresh inputs = Some (outs, self')
    /\ outs = outs_of K 0 inputs
    /\ filtered self' = acc_after K 0 inputs
    /\ Forall (fun o => 0 <= o < 2 ^ M) outs.
Proof.
  intros Hcfg HM Hw Hin.
  destruct (config_bounds K int_bits w Hcfg) as (HK & _ & _).
  pose proof (pow2_pos M HM) as HpM.
  pose proof (pow2_pos (2 * K) ltac:(lia)) as HQ.
  assert (Htop : scale K (2 ^ M - 1) < 2 ^ (w - 1)).
  { unfold scale.
    assert (2 ^ (M + 2 * K) <= 2 ^ (w - 1)) by (apply pow2_le; lia).
    rewrite Z.pow_add_r in * by lia. nia. }
  assert (Hin' : Forall (fun x => 0 <= x <= 2 ^ M - 1) inputs).
  { eapply Forall_impl; [| exact Hin]. cbn beta. lia. }
  assert (H0 : scale K 0 = 0) by reflexivity.
  pose proof (scale_nonneg K (2 ^ M - 1) ltac:(lia) ltac:(lia)) as Hnn.
  exists (outs_of K 0 inputs), {| filtered := acc_after K 0 inputs |}.
  split; [| split; [reflexivity | split; [reflexivity |]]].
  - apply (run_in_range K int_bits w 0 (2 ^ M - 1)); trivial;
      rewrite ?H0; lia.
  - eapply Forall_impl;
      [| apply (outs_of_range K 0 (2 ^ M - 1)); trivial; rewrite ?H0; lia].
    cbn beta. lia.
Qed.

Lemma documented_width_suffices_witness :
  config_ok 2 16 16 = true /\ 0 <= 10 /\ 10 + 1 + 2 * 2 <= 16
  /\ Forall (fun x => 0 <= x < 2 ^ 10) [1023; 0; 512]
  /\ exists outs self',
       run 2 16 16 fresh [1023; 0; 512] = Some (outs, self')
       /\ outs = outs_of 2 0 [1023; 0; 512]
       /\ filtered self' = acc_after 2 0 [1023; 0; 512]
       /\ Forall (fun o => 0 <= o < 2 ^ 10) outs.
Proof.
  assert (H1 : config_ok 2 16 16 = true) by reflexivity.
  assert (H2 : 0 <= 10) by lia.
  assert (H3 : 10 + 1 + 2 * 2 <= 16) by lia.
  assert (H4 : Forall (fun x => 0 <= x < 2 ^ 10) [1023; 0; 512])
    by (repeat constructor; lia).
  split; [exact H1 | split; [exact H2 | split; [exact H3 | split;
    [exact H4 |]]]].
  exact (documented_width_suffices 2 16 16 10 [1023; 0; 512] H1 H2 H3 H4).
Defined.

(** One bit less than the rule asks for is not enough: with [K = 3] a
    10-bit sample needs 17 bits, and in a 16-bit sample type the sample 1023
    is scaled to [-64] instead of 65472. *)
Example width_rule_is_tight :
  filter 3 16 16 fresh 1023 = Some (0, {| filtered := -8 |})
  /\ filter 3 32 32 fresh 1023 = Some (128, {| filtered := 8184 |}).
Proof. split; reflexivity. Qed.

(** ** A constant stream from any state *)

Lemma rising_settles_from (K x acc : Z) (n : nat) :
  1 <= K -> acc <= scale K x -> scale K x - acc <= Z.of_nat n ->
  settled K x (acc_after K acc (repeat x n)).
Proof.
  intros HK Hle Hn.
  destruct (rising_progress K x HK n acc Hle) as [[B1 B2] Hp].
  apply settled_below; trivial.
  pose proof (pow2_pos K ltac:(lia)). lia.
Qed.

Lemma falling_settles_from (K x acc : Z) (n : nat) :
  1 <= K -> scale K x <= acc -> acc - scale K x <= Z.of_nat n ->
  settled K x (acc_after K acc (repeat x n)).
Proof.
  intros HK Hle Hn.
  destruct (falling_progress K x HK n acc Hle) as [[B1 B2] Hp].
  replace (acc_after K acc (repeat x n)) with (scale K x) by lia.
  now apply settled_at_target.
Qed.

(** X9.  Under a valid configuration ([K >= 1] and [2K] smaller than the
    widths of [int] and of the sample type) the filter forgets its state:
    whatever the accumulator holds, a constant sample [x] is returned
    unchanged from call number [|x * 2 ^ (2K) - accumulator|] on, provided
    the first difference and the rounding of the first accumulator do not
    overflow. *)
Theorem recovers_from_any_state
        (K int_bits w : Z) (self : EMA) (x : Z) (n : nat) :
  config_ok K int_bits w = true ->
  fits w (filtered self) ->
  fits w (filtered self + 2 ^ (2 * K - 1)) ->
  fits w (scale K x) ->
  fits w (scale K x - filtered self) ->
  exists outs self',
    run K int_bits w self (repeat x n) = Some (outs, self')
    /\ skipn (Z.to_nat (Z.abs (scale K x - filtered self))) outs =
       repeat x (n - Z.to_nat (Z.abs (scale K x - filtered self))).
Proof.
  intros Hcfg Ha Hr Hs Hd.
  destruct (config_bounds K int_bits w Hcfg) as (HK & Hi & Hw).
  destruct self as [acc]. cbn [filtered] in *.
  pose proof (pow2_pos (2 * K - 1) ltac:(lia)) as Hhalf.
  pose proof (scale_headroom K w x HK Hw ltac:(unfold fits in Hs; lia))
    as Hroom.
  exists (outs_of K acc (repeat x n)).
  exists {| filtered := acc_after K acc (repeat x n) |}.
  destruct (Z.le_gt_cases acc (scale K x)) as [Hle | Hgt].
  - split.
    + apply (run_exact K int_bits w Hcfg
               (fun a => acc <= a <= scale K x) (fun y => y = x)).
      * intros a y Hin ->. unfold fits in *.
        pose proof (next_acc_up K a x ltac:(lia) ltac:(lia)). lia.
      * intros a Hin. unfold fits in *. lia.
      * lia.
      * now apply Forall_repeat.
    + apply outs_of_skipn; trivial.
      apply rising_settles_from; trivial. lia.
  - split.
    + apply (run_exact K int_bits w Hcfg
               (fun a => scale K x <= a <= acc) (fun y => y = x)).
      * intros a y Hin ->. unfold fits in *.
        pose proof (next_acc_down K a x ltac:(lia) ltac:(lia)). lia.
      * intros a Hin. unfold fits in *. lia.
      * lia.
      * now apply Forall_repeat.
    + apply outs_of_skipn; trivial.
      apply falling_settles_from; trivial; lia.
Qed.

Lemma recovers_from_any_state_witness :
  config_ok 1 16 16 = true
  /\ fits 16 (filtered {| filtered := 30 |})
  /\ fits 16 (filtered {| filtered := 30 |} + 2 ^ (2 * 1 - 1))
  /\ fits 16 (scale 1 2)
  /\ fits 16 (scale 1 2 - filtered {| filtered := 30 |})
  /\ exists outs self',
       run 1 16 16 {| filtered := 30 |} (repeat 2 40) = Some (outs, self')
       /\ skipn (Z.to_nat (Z.abs (scale 1 2 - filtered {| filtered := 30 |})))
            outs =
          repeat 2
            (40 - Z.to_nat (Z.abs (scale 1 2 - filtered {| filtered := 30 |}))).
Proof.
  assert (H1 : config_ok 1 16 16 = true) by reflexivity.
  assert (H2 : fits 16 (filtered {| filtered := 30 |}))
    by (apply fitsb_fits; reflexivity).
  assert (H3 : fits 16 (filtered {| filtered := 30 |} + 2 ^ (2 * 1 - 1)))
    by (apply fitsb_fits; reflexivity).
  assert (H4 : fits 16 (scale 1 2)) by (apply fitsb_fits; reflexivity).
  assert (H5 : fits 16 (scale 1 2 - filtered {| filtered := 30 |}))
    by (apply fitsb_fits; reflexivity).
  split; [exact H1 | split; [exact H2 | split; [exact H3 | split;
    [exact H4 | split; [exact H5 |]]]]].
  exact (recovers_from_any_state 1 16 16 {| filtered := 30 |} 2 40
           H1 H2 H3 H4 H5).
Defined.

(** On the way up the accumulator stays at least [2 ^ K - 1] below the
    scaled sample. *)
Lemma rising_stays_below (K x : Z) (n : nat) : forall acc,
  0 <= K ->
  acc <= scale K x - (2 ^ K - 1) ->
  acc_after K acc (repeat x n) <= scale K x - (2 ^ K - 1).
Proof.
  induction n as [| n IH]; intros acc HK Hacc; cbn [repeat acc_after];
    trivial.
  apply IH; trivial. unfold next_acc.
  pose proof (pow2_pos K HK) as HP.
  pose proof (Z.div_mod (scale K x - acc) (2 ^ K) ltac:(lia)) as E.
  pose proof (Z.mod_pos_bound (scale K x - acc) (2 ^ K) HP) as B.
  assert (0 <= (scale K x - acc) / 2 ^ K) by (apply Z.div_pos; lia).
  destruct (Z.eq_dec ((scale K x - acc) / 2 ^ K) 0) as [Hz | Hnz]; nia.
Qed.

(** X10.  After enough calls with a constant sample [x] the accumulator
    of a fresh filter no longer moves, and where it rests depends on the
    direction it came from: [2 ^ K - 1] below [x * 2 ^ (2K)] for a positive
    [x], exactly at [x * 2 ^ (2K)] for a negative [x] or zero. *)
Theorem steady_state_accumulator (K int_bits w x : Z) (n : nat) :
  config_ok K int_bits w = true ->
  fits w (scale K x) ->
  Z.abs (scale K x) <= Z.of_nat n ->
  exists outs,
    run K int_bits w fresh (repeat x n) =
    Some (outs,
          {| filtered :=
               scale K x - (if 0 <? x then 2 ^ K - 1 else 0) |}).
Proof.
  intros Hcfg [Hlo Hhi] Hn.
  destruct (config_bounds K int_bits w Hcfg) as (HK & Hi & Hw).
  pose proof (pow2_pos K ltac:(lia)) as HP.
  exists (outs_of K 0 (repeat x n)).
  destruct (Z.ltb_spec 0 x) as [Hx | Hx].
  - rewrite (run_rising K int_bits w Hcfg x n) by (trivial; lia).
    do 3 f_equal.
    pose proof (scale_nonneg K x ltac:(lia) ltac:(lia)) as Hs.
    assert (Hbig : 2 ^ K - 1 <= scale K x).
    { unfold scale. rewrite (pow2_2K K ltac:(lia)). nia. }
    pose proof (rising_stays_below K x n 0 ltac:(lia) ltac:(lia)).
    destruct (rising_progress K x HK n 0 Hs) as [[B1 B2] Hp]. lia.
  - rewrite (run_falling K int_bits w Hcfg x n) by (trivial; lia).
    do 3 f_equal.
    pose proof (scale_nonpos K x ltac:(lia) Hx) as Hs.
    destruct (falling_progress K x HK n 0 Hs) as [[B1 B2] Hp]. lia.
Qed.

Lemma steady_state_accumulator_witness :
  config_ok 2 16 16 = true /\ fits 16 (scale 2 3)
  /\ Z.abs (scale 2 3) <= Z.of_nat 50
  /\ exists outs,
       run 2 16 16 fresh (repeat 3 50) =
       Some (outs,
             {| filtered := scale 2 3 - (if 0 <? 3 then 2 ^ 2 - 1 else 0) |}).
Proof.
  assert (H1 : config_ok 2 16 16 = true) by reflexivity.
  assert (H2 : fits 16 (scale 2 3)) by (apply fitsb_fits; reflexivity).
  assert (H3 : Z.abs (scale 2 3) <= Z.of_nat 50) by (vm_compute; discriminate).
  split; [exact H1 | split; [exact H2 | split; [exact H3 |]]].
  exact (steady_state_accumulator 2 16 16 3 50 H1 H2 H3).
Defined.

(** ** An [int] of exactly [2K] bits *)

(** When [int] has exactly [2K] bits the shift [1 << (2K - 1)] reaches the
    sign bit, and the rounding constant is the negative power of two. *)
Lemma fixedPointAHalf_narrow (K w : Z) :
  1 <= K -> 2 * K < w ->
  fixedPointAHalf K (2 * K) w = Some (- 2 ^ (2 * K - 1)).
Proof.
  intros HK Hw. unfold fixedPointAHalf.
  rewrite shl_some by lia. cbn [bind].
  replace (K * 2 - 1) with (2 * K - 1) by lia. rewrite Z.mul_1_l.
  pose proof (pow2_2K_half K HK) as E.
  pose proof (pow2_pos (2 * K - 1) ltac:(lia)) as HH.
  assert (Hw' : 2 ^ (2 * K - 1) < 2 ^ (w - 1))
    by (apply Z.pow_lt_mono_r; lia).
  unfold wrap at 2.
  replace (2 ^ (2 * K - 1) + 2 ^ (2 * K - 1)) with (2 ^ (2 * K)) by lia.
  rewrite Z_mod_same_full, Z.sub_0_l.
  rewrite wrap_fits by (unfold fits; lia).
  reflexivity.
Qed.

(** X11.  On a platform whose [int] has exactly [2K] bits, a sample type
    wider than [int] does not help: the rounding constant is negative, and
    every call returns one less than it returns where [int] is wider, with
    the same accumulator. *)
Theorem narrow_int_lowers_output
        (K int_bits w : Z) (self : EMA) (x : Z) :
  config_ok K int_bits w = true ->
  no_overflow K w (filtered self) x ->
  fits w (snd (spec_filter K (filtered self) x) - 2 ^ (2 * K - 1)) ->
  exists out self',
    filter K int_bits w self x = Some (out, self')
    /\ filter K (2 * K) w self x = Some (out - 1, self').
Proof.
  intros Hcfg Hno Hlow.
  destruct (config_bounds K int_bits w Hcfg) as (HK & _ & Hw).
  rewrite (filter_no_overflow K int_bits w self x Hcfg Hno).
  eexists. eexists. split; [reflexivity |].
  rewrite spec_filter_eq in Hlow by lia. cbn [snd] in Hlow.
  destruct (no_overflow_elim K w _ x ltac:(lia) Hno) as (Ha & Hs & Hd & Hr).
  set (a' := next_acc K (filtered self) x) in *.
  assert (Hn : fits w a').
  { pose proof (next_acc_between K (filtered self) x ltac:(lia)).
    unfold fits in *. subst a'. lia. }
  pose proof (pow2_pos (2 * K) ltac:(lia)) as HQ.
  pose proof (pow2_2K_half K HK) as E.
  unfold filter, promoted. rewrite Z.max_r by lia.
  rewrite shl_some by lia. cbn [bind].
  replace (K * 2) with (2 * K) by lia. fold (scale K x).
  rewrite !(wrap_fits w (scale K x)) by (trivial; lia).
  rewrite !(wrap_fits w (scale K x - filtered self)) by (trivial; lia).
  rewrite shr_some by lia. cbn [bind].
  fold (next_acc K (filtered self) x). fold a'.
  rewrite !(wrap_fits w a') by (trivial; lia).
  rewrite fixedPointAHalf_narrow by lia. cbn [bind].
  rewrite Z.add_opp_r.
  rewrite (wrap_fits w (a' - 2 ^ (2 * K - 1))) by (trivial; lia).
  rewrite shr_some by lia. cbn [bind].
  rewrite wrap_fits by (try apply fits_div; trivial; lia).
  do 2 f_equal. unfold descale.
  replace (a' - 2 ^ (2 * K - 1))
    with (a' + 2 ^ (2 * K - 1) + (-1) * 2 ^ (2 * K)) by lia.
  rewrite Z.div_add by lia. lia.
Qed.

Lemma narrow_int_lowers_output_witness :
  config_ok 8 32 32 = true
  /\ no_overflow 8 32 (filtered fresh) 1000
  /\ fits 32 (snd (spec_filter 8 (filtered fresh) 1000) - 2 ^ (2 * 8 - 1))
  /\ exists out self',
       filter 8 32 32 fresh 1000 = Some (out, self')
       /\ filter 8 (2 * 8) 32 fresh 1000 = Some (out - 1, self').
Proof.
  assert (H1 : config_ok 8 32 32 = true) by reflexivity.
  assert (H2 : no_overflow 8 32 (filtered fresh) 1000)
    by (repeat split; apply fitsb_fits; reflexivity).
  assert (H3 : fits 32 (snd (spec_filter 8 (filtered fresh) 1000)
                        - 2 ^ (2 * 8 - 1)))
    by (apply fitsb_fits; reflexivity).
  split; [exact H1 | split; [exact H2 | split; [exact H3 |]]].
  exact (narrow_int_lowers_output 8 32 32 fresh 1000 H1 H2 H3).
Defined.

(** ** How fast the values returned can rise *)

(** X12.  Fed with a constant [x >= 0], a fresh filter cannot rise faster
    than [x / 2 ^ K] per call: none of the first [n] values returned exceeds
    [n * x] divided by [2 ^ K] and rounded to nearest. *)
Theorem rise_is_rate_limited (K int_bits w x : Z) (n : nat) :
  config_ok K int_bits w = true ->
  0 <= x ->
  fits w (scale K x) ->
  exists outs self',
    run K int_bits w fresh (repeat x n) = Some (outs, self')
    /\ Forall (fun o => o <= (Z.of_nat n * x + 2 ^ (K - 1)) / 2 ^ K) outs.
Proof.
  intros Hcfg Hx [Hlo Hhi].
  destruct (config_bounds K int_bits w Hcfg) as (HK & Hi & Hw).
  pose proof (scale_nonneg K x ltac:(lia) Hx) as Hs.
  exists (outs_of K 0 (repeat x n)).
  exists {| filtered := acc_after K 0 (repeat x n) |}.
  split; [now apply run_rising |].
  pose proof (rising_slowly K x n 0 ltac:(lia) Hx ltac:(lia)) as B.
  rewrite Z.add_0_l, Z.mul_assoc, descale_fresh in B by trivial.
  exact B.
Qed.

Lemma rise_is_rate_limited_witness :
  config_ok 4 16 16 = true /\ 0 <= 100 /\ fits 16 (scale 4 100)
  /\ exists outs self',
       run 4 16 16 fresh (repeat 100 3) = Some (outs, self')
       /\ Forall (fun o => o <= (Z.of_nat 3 * 100 + 2 ^ (4 - 1)) / 2 ^ 4)
            outs.
Proof.
  assert (H1 : config_ok 4 16 16 = true) by reflexivity.
  assert (H2 : 0 <= 100) by lia.
  assert (H3 : fits 16 (scale 4 100)) by (apply fitsb_fits; reflexivity).
  split; [exact H1 | split; [exact H2 | split; [exact H3 |]]].
  exact (rise_is_rate_limited 4 16 16 100 3 H1 H2 H3).
Defined.

(** * Outside the valid configurations *)

(** ** The algorithm *)

(** Two places where a call departs from the four steps of the algorithm
    although no step overflows the sample type: with [K = 0] the call has no
    value at all, and with [EMA<16, int64_t>] on a 32-bit [int] the rounding
    constant is negative, so that [filter(1000)] returns [-1] where the
    algorithm gives 0. *)
Lemma filter_departs_from_spec :
  (no_overflow 0 32 5 3
   /\ spec_filter 0 5 3 = (3, 3)
   /\ filter 0 32 32 {| filtered := 5 |} 3 = None)
  /\ (no_overflow 16 64 0 1000
      /\ spec_filter 16 0 1000 = (0, 65536000)
      /\ filter 16 32 64 fresh 1000 = Some (-1, {| filtered := 65536000 |})).
Proof.
  split; (split; [repeat split; apply fitsb_fits; reflexivity |]);
    split; reflexivity.
Qed.

(** ** The width of [int] *)




(** ** An [int] of exactly [2K] bits: what the filter returns *)

(** C4.  [EMA<16, int64_t>] on a 32-bit [int], and [EMA<8, int32_t>] on a
    16-bit [int]: every shift is valid and nothing overflows the sample
    type, yet a fresh filter fed with zeros returns [-1] at every call; only
    the accumulator stays zero. *)
Theorem zero_input_returns_minus_1_on_narrow_int :
  run 16 32 64 fresh [0; 0; 0] = Some ([-1; -1; -1], fresh)
  /\ run 8 16 32 fresh [0; 0; 0] = Some ([-1; -1; -1], fresh).
Proof. split; reflexivity. Qed.

(** C6.  [EMA<8, int32_t>] on a 16-bit [int], fresh and fed with the
    constant [-1]: the first 176 calls return [-1], every later call returns
    [-2], below the input; after 2000 calls the accumulator rests at
    [-1 * 2 ^ 16], where a further call returns [-2] again and leaves the
    accumulator as it is, so the values returned stay at [-2].  Likewise
    [EMA<16, int64_t>] on a 32-bit [int] returns [-4] for the input [-3] once
    its accumulator rests at [-3 * 2 ^ 32]. *)
Theorem negative_input_settles_one_below_on_narrow_int :
  run 8 16 32 fresh (repeat (-1) 2000)
  = Some (repeat (-1) 176 ++ repeat (-2) 1824,
          {| filtered := -1 * 2 ^ 16 |})
  /\ filter 8 16 32 {| filtered := -1 * 2 ^ 16 |} (-1)
     = Some (-2, {| filtered := -1 * 2 ^ 16 |})
  /\ filter 16 32 64 {| filtered := -3 * 2 ^ 32 |} (-3)
     = Some (-4, {| filtered := -3 * 2 ^ 32 |}).
Proof.
  split; [vm_compute; reflexivity | split; reflexivity].
Qed.

(** C10.  [EMA<16, int64_t>] on a 32-bit [int] with the accumulator at
    [7 * 2 ^ 32], and [EMA<8, int32_t>] on a 16-bit [int] with the
    accumulator at [-5 * 2 ^ 16]: the call with the matching sample keeps the
    accumulator but returns one less than the sample. *)
Theorem scaled_fixed_point_returns_one_less_on_narrow_int :
  filter 16 32 64 {| filtered := 7 * 2 ^ (2 * 16) |} 7
  = Some (6, {| filtered := 7 * 2 ^ (2 * 16) |})
  /\ filter 8 16 32 {| filtered := -5 * 2 ^ (2 * 8) |} (-5)
     = Some (-6, {| filtered := -5 * 2 ^ (2 * 8) |}).
Proof. split; reflexivity. Qed.
